(** * Epoch boundary locator and snapshot extraction pipeline

    A shallow embedding of the epoch back-fill script of the domain-stake
    repository (connect, locate epoch boundaries by binary search over block
    heights, assemble one row per finished epoch, write the rows to a JSON
    file) together with the properties its specification states.

    Conventions of the embedding.
    - Block heights and target epochs are JavaScript Numbers holding
      integers; they are modelled as [Z].  [Math.floor((lo + hi) / 2)] is
      [(lo + hi) / 2] on [Z].
    - The chain is fixed during one run: [api] maps a height to the block
      hash and to the staking summary stored at that block.
    - [await] is sequential; an asynchronous function is a pure function of
      the chain, a thrown [Error] is the left summand of a sum type.
    - [fs.writeFileSync] calls are recorded, in order, in the run state. *)

From Stdlib Require Import ZArith NArith Lia String Ascii.
From Stdlib Require Import Decimal DecimalString DecimalN Sorted.
From stdpp Require Import base option list sorting gmap strings.
From Equations Require Import Equations.
From Equations.Prop Require Import Logic.

#[local] Open Scope Z_scope.

(** ** JavaScript values read from the chain *)

(** The result of [toNumber()] / [Number(x)] on an epoch index: [NaN] when
    the summary exposes none of the aliases of the field. *)
Inductive JsNum :=
| NaN
| Int (z : Z).

(** Values stored in the operator tables of a staking summary. *)
Inductive JsVal :=
| JNull
| JNumber (n : N)      (* a Number holding a non-negative safe integer *)
| JString (s : string)
| JCodec (n : N).      (* an integer codec object (BN): [toString()] is decimal *)

(** A table as [mapToObj] may receive it. *)
Inductive MapLike :=
| MAbsent                                   (* [undefined] or [null] *)
| MEntries (es : list (N * JsVal))          (* has [entries()]; keys are operator ids *)
| MObject (props : list (string * JsVal)).  (* [m.toJSON?.() ?? m] is an object with these properties *)

(** ** Arbitrary-precision integers and their string forms *)

(** [n.toString()] for a BigInt or BN [n], and [String(n)] for a safe
    integer: the decimal digits, ["0"] for zero. *)
Definition toString (n : N) : string :=
  NilZero.string_of_uint (N.to_uint n).

(** Re-parsing a string of decimal digits as an arbitrary-precision
    integer ([BigInt(s)]); [None] is the [SyntaxError]. *)
Definition parseBigInt (s : string) : option N :=
  N.of_uint <$> NilEmpty.uint_of_string s.

Definition hexDigit (c : ascii) : option N :=
  let n := N_of_ascii c in
  if ((48 <=? n) && (n <=? 57))%N then Some (n - 48)%N
  else if ((97 <=? n) && (n <=? 102))%N then Some (n - 87)%N
  else if ((65 <=? n) && (n <=? 70))%N then Some (n - 55)%N
  else None.

Fixpoint hexDigits (s : string) (acc : N) : option N :=
  match s with
  | EmptyString => Some acc
  | String c s' =>
      match hexDigit c with
      | Some d => hexDigits s' (16 * acc + d)%N
      | None => None
      end
  end.

(** [v.startsWith('0x')] *)
Definition startsWith0x (v : string) : bool :=
  match v with
  | String "0" (String "x" _) => true
  | _ => false
  end.

(** White space of an ASCII string: TAB, LF, VT, FF, CR and the space. *)
Definition whiteSpace (c : ascii) : bool :=
  let n := N_of_ascii c in ((9 <=? n) && (n <=? 13) || (n =? 32))%N.

(** [v] without its trailing white space. *)
Fixpoint trimTrailing (v : string) : string :=
  match v with
  | EmptyString => EmptyString
  | String c v' =>
      match trimTrailing v' with
      | EmptyString => if whiteSpace c then EmptyString else String c EmptyString
      | t => String c t
      end
  end.

(** [BigInt(v)] for an ASCII string [v] that starts with ["0x"]: white
    space is trimmed (here only trailing white space can occur), and what
    is left must be a hexadecimal literal with at least one digit; [None]
    is the [SyntaxError]. *)
Definition BigInt (v : string) : option N :=
  match trimTrailing v with
  | String "0" (String "x" (String c ds)) => hexDigits (String c ds) 0%N
  | _ => None
  end.

(** ** State reader *)

(** The plain object built by [mapToObj]: property name to decimal string. *)
Abbreviation Obj := (gmap string string).

(** [v?.toString?.() ?? String(v)] in the [entries()] branch. *)
Definition entryValue (v : JsVal) : string :=
  match v with
  | JNull => "null"
  | JNumber n => toString n
  | JString s => s
  | JCodec n => toString n
  end.

(** The three-way test of the object branch; [None] when [BigInt(v)]
    throws. *)
Definition propValue (v : JsVal) : option string :=
  match v with
  | JCodec n => Some (toString n)
  | JString s => if startsWith0x s then toString <$> BigInt s else Some s
  | JNumber n => Some (toString n)
  | JNull => Some "null"%string
  end.

Fixpoint entriesLoop (es : list (N * JsVal)) (out : Obj) : Obj :=
  match es with
  | [] => out
  | (k, v) :: rest => entriesLoop rest (<[toString k := entryValue v]> out)
  end.

(** The loop over [Object.entries(j)]; an exception leaves the loop and
    is swallowed by [catch {}], after which [out] is returned as built so
    far. *)
Fixpoint propsLoop (props : list (string * JsVal)) (out : Obj) : Obj :=
  match props with
  | [] => out
  | (k, v) :: rest =>
      match propValue v with
      | Some s => propsLoop rest (<[k := s]> out)
      | None => out
      end
  end.

Definition mapToObj (m : MapLike) : Obj :=
  match m with
  | MAbsent => ∅
  | MEntries es => entriesLoop es ∅
  | MObject props => propsLoop props ∅
  end.

(** The staking summary of the domain as stored on chain.  A field that
    the record does not expose is [None]. *)
Record StakingSummary := {
  currentEpochIndex : option N;
  epochIndex : option N;
  s_epoch : option N;
  currentTotalStake : option N;
  s_totalStake : option N;
  currentOperators : MapLike;
  currentEpochRewards : MapLike
}.

(** [a ?? b] *)
Definition nullish {A} (a b : option A) : option A :=
  match a with
  | Some _ => a
  | None => b
  end.

Record Api := {
  (** [api.rpc.chain.getHeader().number.toNumber()] *)
  headNumber : Z;
  (** [api.rpc.chain.getBlockHash(n).toString()] *)
  getBlockHash : Z -> string;
  (** [(await api.at(hash)).query.domains.domainStakingSummary(DOMAIN_ID)],
      [None] when the option is empty *)
  domainStakingSummary : Z -> option StakingSummary
}.

Module Summary.
Record t := {
  blockNumber : Z;
  hash : string;
  epoch : JsNum;
  totalStake : option string;
  operatorStakes : Obj;
  rewards : Obj
}.
End Summary.

Definition readSummaryAt (api : Api) (blockNumber : Z) : option Summary.t :=
  match domainStakingSummary api blockNumber with
  | None => None
  | Some s =>
      let epoch := nullish (currentEpochIndex s) (nullish (epochIndex s) (s_epoch s)) in
      Some {|
        Summary.blockNumber := blockNumber;
        Summary.hash := getBlockHash api blockNumber;
        Summary.epoch := match epoch with Some n => Int (Z.of_N n) | None => NaN end;
        Summary.totalStake := toString <$> nullish (currentTotalStake s) (s_totalStake s);
        Summary.operatorStakes := mapToObj (currentOperators s);
        Summary.rewards := mapToObj (currentEpochRewards s)
      |}
  end.

(** [sum?.epoch ?? null]; [None] is [null]. *)
Definition epochAt (api : Api) (blockNumber : Z) : option JsNum :=
  Summary.epoch <$> readSummaryAt api blockNumber.

(** ** Epoch boundary locator *)

Inductive Error :=
| EpochIndexUnavailable        (* 'Cannot read epoch at head' *)
| EpochNotYetReached           (* 'target epoch ... > current ...' *)
| BoundarySearchInconsistent   (* 'Failed to locate start: ...' *)
| CannotReadCurrentEpoch.      (* 'Cannot read current epoch', thrown by main *)

(** [a > e], [e >= a], [e !== a] for a Number [e] that may be [NaN]. *)
Definition gtNum (a : Z) (e : JsNum) : bool :=
  match e with Int v => v <? a | NaN => false end.

Definition geNum (e : JsNum) (a : Z) : bool :=
  match e with Int v => a <=? v | NaN => false end.

Definition isEpoch (e : option JsNum) (a : Z) : bool :=
  match e with Some (Int v) => v =? a | _ => false end.

(** One iteration of [while (lo < hi)] on the pair [(lo, hi)]; [None] when
    the guard fails.  (The variable [ans] of the source is written and
    never read.) *)
Definition loopStep (e : Z -> option JsNum) (targetEpoch : Z) (s : Z * Z) : option (Z * Z) :=
  let '(lo, hi) := s in
  if lo <? hi then
    let mid := (lo + hi) / 2 in
    match e mid with
    | None => Some (mid + 1, hi)
    | Some v => if geNum v targetEpoch then Some (lo, mid) else Some (mid + 1, hi)
    end
  else None.

Definition width (s : Z * Z) : nat := Z.to_nat (s.2 - s.1).

(** The whole loop: the value of [lo] when the guard fails. *)
Equations? search (e : Z -> option JsNum) (targetEpoch : Z) (s : Z * Z) : Z
  by wf (width s) lt :=
search e targetEpoch s with inspect (loopStep e targetEpoch s) := {
  | exist _ None _ := s.1
  | exist _ (Some s') Hs := search e targetEpoch s' }.
Proof.
  clear search. unfold width. simpl.
  match type of Hs with (if ?a <? ?b then _ else _) = _ =>
    destruct (Z.ltb_spec a b); [|discriminate];
    assert (a <= (a + b) / 2 < b)
      by (split; [apply Z.div_le_lower_bound | apply Z.div_lt_upper_bound]; lia)
  end.
  destruct (e _) as [v|]; [destruct (geNum v targetEpoch)|];
    injection Hs as <- <-; lia.
Qed.

Definition findEpochStartBlock (api : Api) (targetEpoch : Z) : Error + Z :=
  let hi := headNumber api in
  match epochAt api hi with
  | None => inl EpochIndexUnavailable
  | Some cur =>
      if gtNum targetEpoch cur then inl EpochNotYetReached
      else
        let lo := search (epochAt api) targetEpoch (1, hi) in
        if isEpoch (epochAt api lo) targetEpoch then inr lo
        else inl BoundarySearchInconsistent
  end.

(** ** Extraction pipeline *)

Module Row.
(** One element of the persisted array.  A property whose value is
    [undefined] or [null] is [None]. *)
Record t := {
  domainId : Z;
  epoch : Z;
  startBlock : Z;
  startHash : option string;
  endBlock : Z;
  endHash : option string;
  totalStake : option string;
  operatorStakes : option Obj;
  rewards : option Obj
}.
End Row.

(** The object literal pushed onto [rows]. *)
Definition assemble (DOMAIN_ID ep startBlock endBlock : Z)
    (startSnap endSnap : option Summary.t) : Row.t :=
  {| Row.domainId := DOMAIN_ID;
     Row.epoch := ep;
     Row.startBlock := startBlock;
     Row.startHash := Summary.hash <$> startSnap;
     Row.endBlock := endBlock;
     Row.endHash := Summary.hash <$> endSnap;
     Row.totalStake := startSnap ≫= Summary.totalStake;
     Row.operatorStakes := Summary.operatorStakes <$> startSnap;
     Row.rewards := Summary.rewards <$> endSnap |}.

(** The mutable variables of [main] and the effects on the output file:
    [written] lists the arrays passed to [fs.writeFileSync], oldest
    first. *)
Record RunState := {
  rows : list Row.t;
  lastWrittenLength : nat;
  written : list (list Row.t)
}.

(** [fs.writeFileSync(OUT, JSON.stringify(rows))] followed by
    [lastWrittenLength = rows.length]. *)
Definition writeRows (st : RunState) : RunState :=
  {| rows := rows st;
     lastWrittenLength := length (rows st);
     written := written st ++ [rows st] |}.

Definition push (r : Row.t) (st : RunState) : RunState :=
  {| rows := rows st ++ [r];
     lastWrittenLength := lastWrittenLength st;
     written := written st |}.

(** [if (rows.length > lastWrittenLength) { write }] *)
Definition flush (st : RunState) : RunState :=
  if (lastWrittenLength st <? length (rows st))%nat then writeRows st else st.

(** The body of the [for] loop for one value of [ep].  The left summand is
    an exception that leaves [main]; it is raised before the body changes
    any variable. *)
Definition epochBody (api : Api) (DOMAIN_ID : Z) (ep : Z) (st : RunState)
    : Error + RunState :=
  match findEpochStartBlock api ep with
  | inl err => inl err
  | inr startBlock =>
      match findEpochStartBlock api (ep + 1) with
      | inl _ =>
          (* catch: hasConfirmedEnd = false; write if needed; continue *)
          inr (flush st)
      | inr nextStart =>
          let endBlock := nextStart - 1 in
          let startSnap := readSummaryAt api startBlock in
          let endSnap := readSummaryAt api endBlock in
          inr (writeRows (push (assemble DOMAIN_ID ep startBlock endBlock startSnap endSnap) st))
      end
  end.

(** How a run ends: normally, or with the exception that reached
    [main().catch], and the state it had reached. *)
Record Run := {
  thrown : option Error;
  final : RunState
}.

(** [n] iterations of the [for] loop starting at [ep]. *)
Fixpoint epochLoop (api : Api) (DOMAIN_ID : Z) (n : nat) (ep : Z) (st : RunState) : Run :=
  match n with
  | O => {| thrown := None; final := st |}
  | S n' =>
      match epochBody api DOMAIN_ID ep st with
      | inl err => {| thrown := Some err; final := st |}
      | inr st' => epochLoop api DOMAIN_ID n' (ep + 1) st'
      end
  end.

(** The number of values [ep] takes in
    [for (let ep = startEpoch; ep <= endEpoch; ep++)]; a comparison with
    [NaN] is false. *)
Definition iterations (startEpoch endEpoch : JsNum) : nat :=
  match startEpoch, endEpoch with
  | Int s, Int e => Z.to_nat (e - s + 1)
  | _, _ => O
  end.

Definition firstEpoch (startEpoch : JsNum) : Z :=
  match startEpoch with Int s => s | NaN => 0 end.

(** [const rows = [...existing]; let lastWrittenLength = rows.length] *)
Definition initState (existing : list Row.t) : RunState :=
  {| rows := existing; lastWrittenLength := length existing; written := [] |}.

(** [main] from [const rows = [...existing]] to the flush after the loop. *)
Definition pipeline (api : Api) (DOMAIN_ID : Z) (startEpoch endEpoch : JsNum)
    (existing : list Row.t) : Run :=
  let r := epochLoop api DOMAIN_ID (iterations startEpoch endEpoch) (firstEpoch startEpoch)
             (initState existing) in
  match thrown r with
  | Some _ => r
  | None => {| thrown := None; final := flush (final r) |}
  end.

(** The command line: [--from], [--to] (default ['current']), [--append],
    [--domain]. *)
Inductive EpochArg :=
| Current
| Number (z : Z).

Record Config := {
  DOMAIN_ID : Z;
  FROM : option EpochArg;
  TO : EpochArg;
  APPEND : bool
}.

(** The content of the output file: [None] when it does not exist. *)
Definition fileAfter (file : option (list Row.t)) (st : RunState) : option (list Row.t) :=
  match last (written st) with
  | Some w => Some w
  | None => file
  end.

Definition main (api : Api) (cfg : Config) (file : option (list Row.t))
    : option Error * option (list Row.t) :=
  match epochAt api (headNumber api) with
  | None => (Some CannotReadCurrentEpoch, file)
  | Some headEpoch =>
      let startEpoch :=
        match FROM cfg with
        | Some Current => headEpoch
        | Some (Number z) => Int z
        | None => Int 0
        end in
      let endEpoch :=
        match TO cfg with
        | Current => headEpoch
        | Number z => Int z
        end in
      let existing :=
        match file with
        | Some content => if APPEND cfg then content else []
        | None => []
        end in
      let r := pipeline api (DOMAIN_ID cfg) startEpoch endEpoch existing in
      (thrown r, fileAfter file (final r))
  end.

(** ** Notions used in the properties *)

(** The loop run with a bound on the number of iterations; [None] when the
    bound is reached before the guard fails. *)
Fixpoint runLoop (e : Z -> option JsNum) (targetEpoch : Z) (fuel : nat) (s : Z * Z)
    : option (Z * Z) :=
  match loopStep e targetEpoch s with
  | None => Some s
  | Some s' =>
      match fuel with
      | O => None
      | S fuel' => runLoop e targetEpoch fuel' s'
      end
  end.

(** An observation lies below a target; Absent lies below every target. *)
Definition obsBelow (t : Z) (o : option JsNum) : Prop :=
  match o with
  | None => True
  | Some (Int v) => v < t
  | Some NaN => False
  end.

(** The order on observations: Absent first, then the integers. *)
Definition obsLeb (a b : option JsNum) : bool :=
  match a, b with
  | None, _ => true
  | Some (Int x), Some (Int y) => x <=? y
  | _, _ => false
  end.

(** The epoch oracle is non-decreasing on the heights [1..head]. *)
Definition monotone (e : Z -> option JsNum) (head : Z) : Prop :=
  forall h1 h2, 1 <= h1 -> h1 <= h2 -> h2 <= head -> obsLeb (e h1) (e h2) = true.

Definition monotoneb (e : Z -> option JsNum) (head : Z) : bool :=
  forallb (fun h1 => forallb (fun h2 => obsLeb (e h1) (e h2))
                       (seqZ h1 (head - h1 + 1)))
          (seqZ 1 head).

(** Nothing is waiting to be written. *)
Definition Synced (st : RunState) : Prop :=
  lastWrittenLength st = length (rows st).

(** The row of an epoch whose start and whose successor's start the
    locator found: the end height is the successor's start minus one. *)
Definition confirmed (api : Api) (DOMAIN_ID : Z) (r : Row.t) : Prop :=
  findEpochStartBlock api (Row.epoch r) = inr (Row.startBlock r) /\
  findEpochStartBlock api (Row.epoch r + 1) = inr (Row.endBlock r + 1) /\
  r = assemble DOMAIN_ID (Row.epoch r) (Row.startBlock r) (Row.endBlock r)
        (readSummaryAt api (Row.startBlock r)) (readSummaryAt api (Row.endBlock r)).

(** The writes of a run that appends the rows [new], one by one, to
    [base]: after each row the whole sequence accumulated so far. *)
Fixpoint writesOf (base new : list Row.t) : list (list Row.t) :=
  match new with
  | [] => []
  | r :: new' => (base ++ [r]) :: writesOf (base ++ [r]) new'
  end.

(** Epoch values strictly ascending. *)
Definition ascending (l : list Row.t) : Prop :=
  StronglySorted Z.lt (Row.epoch <$> l).

(** The unsigned integer that a value of a table with [entries()]
    denotes: such a table holds integer codec objects (or safe Numbers). *)
Definition entryInteger (v : JsVal) : option N :=
  match v with
  | JCodec n => Some n
  | JNumber n => if (n <? 2 ^ 53)%N then Some n else None
  | _ => None
  end.

(** The unsigned integer that a property of the JSON form of a table
    denotes: a codec object, a safe Number, or a hexadecimal literal. *)
Definition propInteger (v : JsVal) : option N :=
  match v with
  | JCodec n => Some n
  | JNumber n => if (n <? 2 ^ 53)%N then Some n else None
  | JString s => if startsWith0x s then BigInt s else None
  | JNull => None
  end.

(** A string is the decimal form of the integer [n]: it is what
    [toString] prints and it parses back to [n]. *)
Definition decimalOf (n : N) (str : string) : Prop :=
  str = toString n /\ parseBigInt str = Some n.

(** ** Synthetic chains *)

Definition summaryOf (n : N) : StakingSummary :=
  {| currentEpochIndex := Some n;
     epochIndex := None;
     s_epoch := None;
     currentTotalStake := Some (2 ^ 64 + n)%N;
     s_totalStake := None;
     currentOperators := MEntries [(0%N, JCodec (2 ^ 60)%N); (1%N, JCodec (2 ^ 63 + n)%N)];
     currentEpochRewards := MObject [("0"%string, JString "0x2386f26fc10000"); ("1"%string, JNumber n)] |}.

(** The chain with head [head] whose block [h] stores epoch index
    [epochs h], or no summary when that is [None]. *)
Definition chainOf (head : Z) (epochs : Z -> option N) : Api :=
  {| headNumber := head;
     getBlockHash := fun h => ("0x" ++ toString (Z.to_N h))%string;
     domainStakingSummary := fun h => summaryOf <$> epochs h |}.

(** Epoch 0 on heights 1..99, epoch 1 on 100..199, epoch 2 from 200 on,
    head at 250. *)
Definition scenario : Api :=
  chainOf 250 (fun h => if h <? 100 then Some 0%N else if h <? 200 then Some 1%N else Some 2%N).

(** Epoch 0 on heights 1..2, epoch 2 on heights 3..4 (epoch 1 is never
    observed), head at 4. *)
Definition skipping : Api :=
  chainOf 4 (fun h => if h <? 3 then Some 0%N else Some 2%N).

(** Epoch 3 on every height, head at 4. *)
Definition lateStart : Api :=
  chainOf 4 (fun _ => Some 3%N).

(** No summary on heights 1..9, epoch 0 from height 10 on, head at 12. *)
Definition lateActivation : Api :=
  chainOf 12 (fun h => if h <? 10 then None else Some 0%N).

(** Epoch 0 on heights 1..2, epoch 1 on 3..4, epoch 2 on 5..6, head at 6. *)
Definition threeEpochs : Api :=
  chainOf 6 (fun h => if h <? 3 then Some 0%N else if h <? 5 then Some 1%N else Some 2%N).

(** A chain that is not monotonic: a summary with epoch 0 at height 3, one
    with epoch 1 at height 5, none elsewhere; head at 5. *)
Definition gappy : Api :=
  chainOf 5 (fun h => if h =? 3 then Some 0%N else if h =? 5 then Some 1%N else None).

(** ** Command line of the back-fill script *)

(** [argv.indexOf(x)]; [None] is [-1]. *)
Fixpoint indexOf (argv : list string) (x : string) : option nat :=
  match argv with
  | [] => None
  | a :: rest => if String.eqb a x then Some O else S <$> indexOf rest x
  end.

(** [v.startsWith('--')] *)
Definition startsWithDashes (v : string) : bool :=
  match v with
  | String "-" (String "-" _) => true
  | _ => false
  end.

(** [c.toUpperCase()] on an ASCII character. *)
Definition upperChar (c : ascii) : ascii :=
  let n := N_of_ascii c in
  if ((97 <=? n) && (n <=? 122))%N then ascii_of_N (n - 32) else c.

(** [k.toUpperCase()] on an ASCII string (the option names are ASCII). *)
Fixpoint toUpperCase (k : string) : string :=
  match k with
  | EmptyString => EmptyString
  | String c k' => String (upperChar c) (toUpperCase k')
  end.

(** [getArg(k, d)] over the arguments [argv] and the environment [env];
    [None] is [undefined].  The empty string is falsy. *)
Definition getArg (argv : list string) (env : gmap string string)
    (k : string) (d : option string) : option string :=
  let fallback := nullish (env !! toUpperCase k) d in
  match indexOf argv ("--" ++ k) with
  | Some i =>
      match argv !! S i with
      | Some v =>
          if negb (String.eqb v "") && negb (startsWithDashes v) then Some v
          else fallback
      | None => fallback
      end
  | None => fallback
  end.

(** ** The single-epoch reader script *)

Module Reader.

(** [readEpochIndexAt]: the epoch index of the summary at a block, [None]
    when the block has no summary.  [readSummaryAtBlockNumber] ends its
    chain of aliases with [?? null], and [Number(null)] is 0. *)
Definition readEpochIndexAt (api : Api) (blockNumber : Z) : option Z :=
  match domainStakingSummary api blockNumber with
  | None => None
  | Some s =>
      match nullish (currentEpochIndex s) (nullish (epochIndex s) (s_epoch s)) with
      | Some n => Some (Z.of_N n)
      | None => Some 0
      end
  end.

(** The oracle that the reader's search probes. *)
Definition oracle (api : Api) (blockNumber : Z) : option JsNum :=
  Int <$> readEpochIndexAt api blockNumber.

(** [findEpochStartBlock(api, domainId, targetEpoch)]; [api] is the chain
    seen at the domain [domainId].  (The counter [steps] only feeds the
    log.) *)
Definition findEpochStartBlock (api : Api) (targetEpoch : Z) : Error + Z :=
  let hi := headNumber api in
  match readEpochIndexAt api hi with
  | None => inl EpochIndexUnavailable
  | Some curEpoch =>
      if curEpoch <? targetEpoch then inl EpochNotYetReached
      else
        let lo := search (oracle api) targetEpoch (1, hi) in
        if isEpoch (oracle api lo) targetEpoch then inr lo
        else inl BoundarySearchInconsistent
  end.

(** What the reader reports about the boundaries of its epoch. *)
Record Report := {
  epoch : Z;
  startBlock : Z;
  startHash : string;
  endBlock : Z;
  endHash : string;
  (** the head was taken as a provisional end *)
  provisional : bool
}.

(** The reader's main program up to the report of the end block;
    [TARGET_EPOCH] is the number given with [--epoch], if any.  (The
    stake and reward tables that it prints afterwards are not part of
    this function.) *)
Definition boundaries (api : Api) (TARGET_EPOCH : option Z) : Error + Report :=
  match readEpochIndexAt api (headNumber api) with
  | None => inl CannotReadCurrentEpoch
  | Some headEpoch =>
      let epoch := match TARGET_EPOCH with Some z => z | None => headEpoch end in
      match findEpochStartBlock api epoch with
      | inl err => inl err
      | inr startBlock =>
          match findEpochStartBlock api (epoch + 1) with
          | inr nextStartBlock =>
              inr {| epoch := epoch;
                     startBlock := startBlock;
                     startHash := getBlockHash api startBlock;
                     endBlock := nextStartBlock - 1;
                     endHash := getBlockHash api (nextStartBlock - 1);
                     provisional := false |}
          | inl _ =>
              inr {| epoch := epoch;
                     startBlock := startBlock;
                     startHash := getBlockHash api startBlock;
                     endBlock := headNumber api;
                     endHash := getBlockHash api (headNumber api);
                     provisional := true |}
          end
      end
  end.

(** [typeof v === 'object' && v !== null && v.toString ? v.toString() : String(v)] *)
Definition propValue (v : JsVal) : string :=
  match v with
  | JCodec n => toString n
  | JString s => s
  | JNumber n => toString n
  | JNull => "null"
  end.

Fixpoint propsLoop (props : list (string * JsVal)) (out : Obj) : Obj :=
  match props with
  | [] => out
  | (k, v) :: rest => propsLoop rest (<[k := propValue v]> out)
  end.

Definition mapToObjectLike (m : MapLike) : Obj :=
  match m with
  | MAbsent => ∅
  | MEntries es => entriesLoop es ∅
  | MObject props => propsLoop props ∅
  end.

End Reader.

(** ** The dashboard: formatting of amounts *)

Module Page.

#[local] Open Scope string_scope.

(** [n.toString()] for a BigInt [n]. *)
Definition toStringZ (z : Z) : string :=
  match z with
  | Z0 => "0"
  | Zpos p => toString (Npos p)
  | Zneg p => "-" ++ toString (Npos p)
  end.

(** White space of an ASCII string: TAB, LF, VT, FF, CR and the space. *)
Definition isWhite (c : ascii) : bool :=
  let n := N_of_ascii c in ((9 <=? n) && (n <=? 13) || (n =? 32))%N.

Fixpoint trimStart (s : string) : string :=
  match s with
  | EmptyString => EmptyString
  | String c s' => if isWhite c then trimStart s' else s
  end.

(** [s] without its trailing white space. *)
Fixpoint trimEnd (s : string) : string :=
  match s with
  | EmptyString => EmptyString
  | String c s' =>
      match trimEnd s' with
      | EmptyString => if isWhite c then EmptyString else String c EmptyString
      | t => String c t
      end
  end.

(** Digits in base [base] (2, 8 or 16), most significant first. *)
Fixpoint radixDigits (base : N) (s : string) (acc : N) : option N :=
  match s with
  | EmptyString => Some acc
  | String c s' =>
      match hexDigit c with
      | Some d => if (d <? base)%N then radixDigits base s' (base * acc + d)%N else None
      | None => None
      end
  end.

(** A digit string that is not empty, in base [base]. *)
Definition radixLiteral (base : N) (ds : string) : option Z :=
  match ds with
  | EmptyString => None
  | _ => Z.of_N <$> radixDigits base ds 0%N
  end.

(** Decimal digits, at least one. *)
Definition decimalLiteral (ds : string) : option Z :=
  match ds with
  | EmptyString => None
  | _ => Z.of_N <$> parseBigInt ds
  end.

(** [BigInt(x)] for an ASCII string [x]: white space is trimmed, the
    empty string is 0, a literal is a decimal one with an optional sign or
    an unsigned binary, octal or hexadecimal one; [None] is the
    [SyntaxError]. *)
Definition StringToBigInt (x : string) : option Z :=
  match trimEnd (trimStart x) with
  | EmptyString => Some 0
  | String "0" (String "x" ds) | String "0" (String "X" ds) => radixLiteral 16 ds
  | String "0" (String "o" ds) | String "0" (String "O" ds) => radixLiteral 8 ds
  | String "0" (String "b" ds) | String "0" (String "B" ds) => radixLiteral 2 ds
  | String "-" ds => Z.opp <$> decimalLiteral ds
  | String "+" ds => decimalLiteral ds
  | t => decimalLiteral t
  end.

(** [\d] and [\w] on ASCII characters. *)
Definition isDigit (c : ascii) : bool :=
  let n := N_of_ascii c in ((48 <=? n) && (n <=? 57))%N.

Definition isWord (c : ascii) : bool :=
  let n := N_of_ascii c in
  ((48 <=? n) && (n <=? 57) || (65 <=? n) && (n <=? 90) ||
   (97 <=? n) && (n <=? 122) || (n =? 95))%N.

(** The number of digits that [s] starts with. *)
Fixpoint digitRun (s : string) : nat :=
  match s with
  | String c s' => if isDigit c then S (digitRun s') else O
  | EmptyString => O
  end.

(** Whether [/\B(?=(\d{3})+(?!\d))/] matches in front of [s] when the
    character before is [prev]: the look-ahead wants a positive multiple
    of three digits followed by no digit, so the next character is a word
    character and [\B] wants a word character before. *)
Definition sepMatch (prev : option ascii) (s : string) : bool :=
  match prev with
  | Some p => isWord p && (0 <? digitRun s)%nat && (digitRun s mod 3 =? 0)%nat
  | None => false
  end.

(** The replacement of every match by [","], left to right. *)
Fixpoint sepFrom (prev : option ascii) (s : string) : string :=
  match s with
  | EmptyString => EmptyString
  | String c s' =>
      if sepMatch prev s then String "," (String c (sepFrom (Some c) s'))
      else String c (sepFrom (Some c) s')
  end.

Definition insertThousandsSeparators (intStr : string) : string :=
  sepFrom None intStr.

(** [formatBig(x)]; [None] is [undefined], and the empty string is falsy. *)
Definition formatBig (x : option string) : string :=
  match x with
  | None | Some EmptyString => ""
  | Some s =>
      match StringToBigInt s with
      | Some n => sepFrom None (toStringZ n)
      | None => s
      end
  end.

(** [pow10BigInt(exp)]: [exp] multiplications by ten. *)
Fixpoint pow10BigInt (exp : nat) : Z :=
  match exp with
  | O => 1
  | S exp' => (pow10BigInt exp' * 10)%Z
  end.

(** [s.padStart(n, '0')] *)
Definition padStart (n : nat) (s : string) : string :=
  String.concat "" (replicate (n - String.length s)%nat "0") ++ s.

(** The integer part with its carry and the fractional part that the two
    token formatters print; BigInt division truncates. *)
Definition tokenParts (value : Z) (fractionDigits : nat) : Z * Z :=
  let base := pow10BigInt 18 in
  let integer := Z.quot value base in
  let remainder := Z.rem value base in
  let scale := pow10BigInt fractionDigits in
  let fractional := Z.quot (remainder * scale + Z.quot base 2)%Z base in
  if (scale <=? fractional)%Z then ((integer + 1)%Z, (fractional - scale)%Z)
  else (integer, fractional).

Definition formatTokensFromShannons (x : option string) (fractionDigits : nat) : string :=
  match x with
  | None | Some EmptyString => ""
  | Some s =>
      match StringToBigInt s with
      | Some value =>
          let '(integer, fractional) := tokenParts value fractionDigits in
          insertThousandsSeparators (toStringZ integer) ++ "." ++
          padStart fractionDigits (toStringZ fractional)
      | None => ""
      end
  end.

Definition tokensPlainFromShannons (x : option string) (fractionDigits : nat) : string :=
  match x with
  | None | Some EmptyString => ""
  | Some s =>
      match StringToBigInt s with
      | Some value =>
          let '(integer, fractional) := tokenParts value fractionDigits in
          toStringZ integer ++ "." ++ padStart fractionDigits (toStringZ fractional)
      | None => ""
      end
  end.

Definition formatTokensIntegerFromShannons (x : option string) : string :=
  match x with
  | None | Some EmptyString => ""
  | Some s =>
      match StringToBigInt s with
      | Some value =>
          insertThousandsSeparators (toStringZ (Z.quot value (pow10BigInt 18)))
      | None => ""
      end
  end.

Inductive Unit := AI3 | Shannons.

Definition formatAmount (x : option string) (unit : Unit) : string :=
  match unit with
  | AI3 => formatTokensFromShannons x 3
  | Shannons => formatBig x
  end.

Definition formatRewardsAmount (x : option string) (unit : Unit) : string :=
  match unit with
  | AI3 => formatTokensFromShannons x 6
  | Shannons => formatBig x
  end.

End Page.

(** ** The dashboard: rows *)

Module Dash.

(** The three-way test of the dashboard's own [mapToObj]: here a
    [BigInt] that throws is caught at once and the string kept. *)
Definition propValue (v : JsVal) : string :=
  match v with
  | JCodec n => toString n
  | JString s =>
      if startsWith0x s
      then match BigInt s with Some n => toString n | None => s end
      else s
  | JNumber n => toString n
  | JNull => "null"
  end.

Fixpoint propsLoop (props : list (string * JsVal)) (out : Obj) : Obj :=
  match props with
  | [] => out
  | (k, v) :: rest => propsLoop rest (<[k := propValue v]> out)
  end.

Definition mapToObj (m : MapLike) : Obj :=
  match m with
  | MAbsent => ∅
  | MEntries es => entriesLoop es ∅
  | MObject props => propsLoop props ∅
  end.

(** A row as the dashboard holds it: a row of the persisted file or the
    live row; [None] is [undefined] or [null]. *)
Record Row := {
  domainId : option Z;
  epoch : JsNum;
  startBlock : option Z;
  startHash : option string;
  endBlock : option Z;
  endHash : option string;
  totalStake : option string;
  operatorStakes : option Obj;
  rewards : option Obj
}.

(** The row that the subscription to new heads builds for the block
    [blockNumber]; [None] when the handler returns without a row. *)
Definition liveRowAt (api : Api) (blockNumber : Z) : option Row :=
  match domainStakingSummary api blockNumber with
  | None => None
  | Some s =>
      let epochRaw := nullish (currentEpochIndex s) (nullish (epochIndex s) (s_epoch s)) in
      Some {| domainId := Some 0;
              epoch := match epochRaw with Some n => Int (Z.of_N n) | None => NaN end;
              startBlock := None;
              endBlock := Some blockNumber;
              startHash := None;
              endHash := Some (getBlockHash api blockNumber);
              totalStake := toString <$> nullish (currentTotalStake s) (s_totalStake s);
              operatorStakes := Some (mapToObj (currentOperators s));
              rewards := Some (mapToObj (currentEpochRewards s)) |}
  end.

(** [a > b] and [a === b] on Numbers. *)
Definition gtJs (a b : JsNum) : bool :=
  match a, b with Int x, Int y => y <? x | _, _ => false end.

Definition eqJs (a b : JsNum) : bool :=
  match a, b with Int x, Int y => x =? y | _, _ => false end.

(** [mergedRows]: the persisted rows with the live row, if any.  The
    spread [{ ...last, ...liveRow }] takes every property from the live
    row, which defines all of them. *)
Definition mergedRows (rows : list Row) (liveRow : option Row) : list Row :=
  match liveRow with
  | None => rows
  | Some live =>
      match last rows with
      | None => [live]
      | Some lastRow =>
          if gtJs (epoch live) (epoch lastRow) then rows ++ [live]
          else if eqJs (epoch live) (epoch lastRow) then removelast rows ++ [live]
          else rows
      end
  end.

Inductive Range := R50 | R200 | All.

(** [arr.slice(-n)] *)
Definition sliceLast {A} (n : nat) (arr : list A) : list A :=
  drop (length arr - n) arr.

Definition displayRows {A} (range : Range) (baseRows : list A) : list A :=
  match range with
  | All => baseRows
  | R50 => sliceLast 50 baseRows
  | R200 => sliceLast 200 baseRows
  end.

(** [Math.ceil(n / 1000)] *)
Definition sampleStep (n : nat) : nat := ((n + 999) / 1000)%nat.

(** The indices that the down-sampling keeps: every multiple of the step
    and, when it is not among them, the last index.  (The rows are
    distinct objects, so [!==] on rows is a comparison of indices.) *)
Definition sampledIndices (n : nat) : list nat :=
  let step := sampleStep n in
  let sampled := filter (fun i : nat => (i mod step)%nat = O) (seq 0 n) in
  if decide (last sampled = Some (n - 1)%nat) then sampled
  else sampled ++ [(n - 1)%nat].

Definition chartRows {A} (range : Range) (displayRows : list A) : list A :=
  match range with
  | All =>
      if (1000 <? length displayRows)%nat
      then omap (fun i => displayRows !! i) (sampledIndices (length displayRows))
      else displayRows
  | _ => displayRows
  end.

(** The sum that [summary] computes over the values of the last row's
    rewards; a value that is no BigInt literal is skipped. *)
Definition rewardsTotal (rewards : Obj) : Z :=
  map_fold (fun _ v acc =>
              match Page.StringToBigInt v with
              | Some n => acc + n
              | None => acc
              end) 0 rewards.

End Dash.

(** ** Notions used in the further properties *)

(** Every summary stored on the chain exposes its epoch index under one
    of the names the scripts try. *)
Definition epochExposed (api : Api) : Prop :=
  forall h s, domainStakingSummary api h = Some s ->
    is_Some (nullish (currentEpochIndex s) (nullish (epochIndex s) (s_epoch s))).

(** A string of decimal digits. *)
Fixpoint allDigits (s : string) : bool :=
  match s with
  | EmptyString => true
  | String c s' => Page.isDigit c && allDigits s'
  end.

(** A string without its commas. *)
Fixpoint stripCommas (s : string) : string :=
  match s with
  | EmptyString => EmptyString
  | String c s' => if Ascii.eqb c "," then stripCommas s' else String c (stripCommas s')
  end.

(** The sum of the integers that the values of a table denote. *)
Definition tableSum (es : list (N * JsVal)) : Z :=
  foldr (fun kv acc => acc + Z.of_N (default 0%N (entryInteger kv.2))) 0 es.

(** Rows in strictly ascending order of their epoch. *)
Definition dashAscending (rows : list Dash.Row) : Prop :=
  StronglySorted (fun a b => Dash.gtJs (Dash.epoch b) (Dash.epoch a) = true) rows.

(** ** Properties of the locator *)

Example scenario_1 : findEpochStartBlock scenario 1 = inr 100.
Proof. vm_compute. reflexivity. Qed.
Example scenario_2 : findEpochStartBlock scenario 2 = inr 200.
Proof. vm_compute. reflexivity. Qed.
Example scenario_3 : findEpochStartBlock scenario 3 = inl EpochNotYetReached.
Proof. vm_compute. reflexivity. Qed.

Lemma monotoneb_sound e head : monotoneb e head = true -> monotone e head.
Proof.
  unfold monotoneb, monotone. intros H h1 h2 H1 H12 H2.
  rewrite forallb_forall in H.
  assert (Hin1 : In h1 (seqZ 1 head)) by (apply list_elem_of_In, elem_of_seqZ; lia).
  specialize (H h1 Hin1). rewrite forallb_forall in H.
  apply H, list_elem_of_In, elem_of_seqZ. lia.
Qed.

Section Locator.
Variable e : Z -> option JsNum.
Variable t : Z.

Lemma search_loop s :
  search e t s = match loopStep e t s with
                 | None => s.1
                 | Some s' => search e t s'
                 end.
Proof.
  funelim (search e t s).
  - match goal with Hs : loopStep _ _ _ = Some _ |- _ => rewrite Hs end. reflexivity.
  - match goal with Hs : loopStep _ _ _ = None |- _ => rewrite Hs end. reflexivity.
Qed.

Lemma mid_bounds lo hi : lo < hi -> lo <= (lo + hi) / 2 < hi.
Proof.
  intros. split; [apply Z.div_le_lower_bound | apply Z.div_lt_upper_bound]; lia.
Qed.

(** What one iteration does to the bounds. *)
Lemma loopStep_cases lo hi s' :
  loopStep e t (lo, hi) = Some s' ->
  lo < hi /\
  ((s' = (lo, (lo + hi) / 2) /\
    exists v, e ((lo + hi) / 2) = Some (Int v) /\ t <= v) \/
   (s' = ((lo + hi) / 2 + 1, hi) /\
    (e ((lo + hi) / 2) = None \/ e ((lo + hi) / 2) = Some NaN \/
     exists v, e ((lo + hi) / 2) = Some (Int v) /\ v < t))).
Proof.
  unfold loopStep. intros Hs.
  destruct (Z.ltb_spec lo hi); [|discriminate].
  split; [assumption|].
  destruct (e _) as [[|v]|]; simpl in Hs.
  - injection Hs as <-. right. eauto.
  - destruct (Z.leb_spec t v); injection Hs as <-; [left | right]; eauto 6.
  - injection Hs as <-. right. eauto.
Qed.

Lemma loopStep_None lo hi : loopStep e t (lo, hi) = None <-> hi <= lo.
Proof.
  unfold loopStep. destruct (Z.ltb_spec lo hi).
  - split; [|lia]. destruct (e _) as [v|]; [destruct (geNum v t)|]; discriminate.
  - split; [lia | reflexivity].
Qed.

Lemma loopStep_width s s' : loopStep e t s = Some s' -> (width s' < width s)%nat.
Proof.
  destruct s as [lo hi]. intros H. apply loopStep_cases in H as [Hlt H].
  pose proof (mid_bounds lo hi Hlt).
  unfold width. destruct H as [[-> _]|[-> _]]; simpl; lia.
Qed.

(** A property of the bounds that every iteration keeps holds when the
    loop is left. *)
Lemma search_invariant (I : Z * Z -> Prop) :
  (forall s s', I s -> loopStep e t s = Some s' -> I s') ->
  forall s, I s -> exists hi, I (search e t s, hi) /\ hi <= search e t s.
Proof.
  intros Hstep s. funelim (search e t s); intros HI.
  - match goal with IH : forall I : _ -> Prop, _ |- _ => eapply IH; eauto end.
  - match goal with Hn : loopStep _ _ _ = None |- _ => pose proof Hn as Hnone end.
    clear - Hnone HI. destruct s as [lo hi].
    apply loopStep_None in Hnone. exists hi. simpl. split; assumption.
Qed.

Lemma runLoop_search fuel s :
  (width s <= fuel)%nat ->
  exists hi, runLoop e t fuel s = Some (search e t s, hi) /\ hi <= search e t s.
Proof.
  revert s. induction fuel as [|fuel IH]; intros s Hw; rewrite search_loop; simpl.
  - destruct (loopStep e t s) as [s'|] eqn:Hs.
    + apply loopStep_width in Hs. lia.
    + destruct s as [lo hi]. apply loopStep_None in Hs. eauto.
  - destruct (loopStep e t s) as [s'|] eqn:Hs.
    + apply IH. apply loopStep_width in Hs. lia.
    + destruct s as [lo hi]. apply loopStep_None in Hs. eauto.
Qed.
End Locator.

Lemma isEpoch_true o t : isEpoch o t = true <-> o = Some (Int t).
Proof.
  destruct o as [[|v]|]; simpl; split; try discriminate.
  - intros H%Z.eqb_eq. congruence.
  - intros [= ->]. apply Z.eqb_refl.
Qed.

Lemma findEpochStartBlock_inr api t h :
  findEpochStartBlock api t = inr h ->
  h = search (epochAt api) t (1, headNumber api) /\ epochAt api h = Some (Int t).
Proof.
  unfold findEpochStartBlock.
  destruct (epochAt api (headNumber api)) as [cur|]; [|discriminate].
  destruct (gtNum t cur); [discriminate|].
  destruct (isEpoch _ t) eqn:Hv; [|discriminate].
  intros [= <-]. split; [reflexivity|]. apply isEpoch_true, Hv.
Qed.

Lemma obsLeb_Int_r a y :
  obsLeb a (Some (Int y)) = true -> a = None \/ exists x, a = Some (Int x) /\ x <= y.
Proof.
  destruct a as [[|x]|]; simpl; try discriminate; [|auto].
  intros H%Z.leb_le. right. eauto.
Qed.

Lemma obsLeb_None_r a : obsLeb a None = true -> a = None.
Proof. destruct a as [[|x]|]; simpl; try discriminate; reflexivity. Qed.

(** On a monotonic chain the search for an epoch that some block [h0]
    of the chain shows ends on the first block that shows it. *)
Lemma locate_monotone api t h0 :
  monotone (epochAt api) (headNumber api) ->
  1 <= h0 <= headNumber api ->
  epochAt api h0 = Some (Int t) ->
  exists h, findEpochStartBlock api t = inr h /\ 1 <= h <= h0 /\
            forall h', 1 <= h' < h -> obsBelow t (epochAt api h').
Proof.
  intros Hmono Hh0 Ht.
  set (e := epochAt api) in *. set (head := headNumber api) in *.
  assert (Hhead : exists cur, e head = Some (Int cur) /\ t <= cur).
  { pose proof (Hmono h0 head ltac:(lia) ltac:(lia) ltac:(lia)) as Hle.
    rewrite Ht in Hle. destruct (e head) as [[|cur]|]; simpl in Hle; try discriminate.
    exists cur. split; [reflexivity|]. apply Z.leb_le, Hle. }
  destruct Hhead as (cur & Hcur & Hle).
  pose (I := fun s : Z * Z =>
    1 <= s.1 <= s.2 /\ s.2 <= head /\
    (exists v, e s.2 = Some (Int v) /\ t <= v) /\
    forall h', 1 <= h' < s.1 -> obsBelow t (e h')).
  destruct (search_invariant e t I) with (s := (1, head)) as (hi & HI & Hhi).
  - intros [lo hi] s' (Hb & Hh & Hv & Hlow) Hs. simpl in *.
    apply loopStep_cases in Hs as [Hlt Hs].
    pose proof (mid_bounds lo hi Hlt) as Hmid.
    destruct Hs as [[-> Hs]|[-> Hs]]; unfold I; simpl.
    + split; [lia|]. split; [lia|]. split; [assumption|].
      intros h' Hh'. apply Hlow. lia.
    + split; [lia|]. split; [lia|]. split; [assumption|].
      intros h' Hh'.
      destruct (Z.lt_ge_cases h' lo) as [Hlo|Hlo]; [apply Hlow; lia|].
      pose proof (Hmono h' ((lo + hi) / 2) ltac:(lia) ltac:(lia) ltac:(lia)) as Hm.
      fold e in Hm.
      destruct Hs as [Hs|[Hs|(v & Hs & Hvt)]]; rewrite Hs in Hm.
      * apply obsLeb_None_r in Hm. rewrite Hm. exact Logic.I.
      * destruct (e h') as [[|x]|]; simpl in Hm; try discriminate. exact Logic.I.
      * apply obsLeb_Int_r in Hm as [->|(x & -> & Hx)]; simpl; [exact Logic.I | lia].
  - unfold I. simpl. split; [lia|]. split; [lia|]. split; [eauto|].
    intros h' Hh'. lia.
  - destruct HI as (Hb & Hh & (v & Hv & Htv) & Hlow). simpl in *.
    set (lo := search e t (1, head)) in *.
    assert (hi = lo) as -> by lia.
    assert (lo <= h0).
    { destruct (Z.le_gt_cases lo h0) as [|Hgt]; [assumption|].
      specialize (Hlow h0 ltac:(lia)). rewrite Ht in Hlow. simpl in Hlow. lia. }
    pose proof (Hmono lo h0 ltac:(lia) ltac:(lia) ltac:(lia)) as Hm.
    fold e in Hm. rewrite Hv, Ht in Hm. simpl in Hm. apply Z.leb_le in Hm.
    assert (v = t) as -> by lia.
    exists lo. split; [|split; [lia | assumption]].
    unfold findEpochStartBlock. fold e head lo. rewrite Hcur. simpl.
    destruct (Z.ltb_spec cur t); [lia|].
    change (search (epochAt api) t (1, head)) with lo.
    rewrite Hv. simpl. rewrite Z.eqb_refl. reflexivity.
Qed.

(** C10 (termination of the boundary search).  For every oracle, target
    and head height: an iteration of the loop runs only when [lo < hi],
    then either lowers [hi] to [mid < hi] or raises [lo] to [mid + 1 > lo],
    so the width [hi - lo] strictly shrinks; and the loop started on
    [(1, head)] leaves through its guard within [head - 1] iterations, with
    [lo] the value the locator goes on with. *)
Theorem search_terminates (e : Z -> option JsNum) (targetEpoch head : Z) :
  (forall lo hi s', loopStep e targetEpoch (lo, hi) = Some s' ->
     let mid := (lo + hi) / 2 in
     lo < hi /\
     (s' = (lo, mid) /\ mid < hi \/ s' = (mid + 1, hi) /\ lo < mid + 1) /\
     (width s' < width (lo, hi))%nat) /\
  exists fin, runLoop e targetEpoch (Z.to_nat (head - 1)) (1, head) = Some fin /\
              loopStep e targetEpoch fin = None /\
              fin.1 = search e targetEpoch (1, head).
Proof.
  split.
  - intros lo hi s' Hs mid.
    pose proof (loopStep_width _ _ _ _ Hs) as Hw.
    apply loopStep_cases in Hs as [Hlt Hs].
    pose proof (mid_bounds lo hi Hlt).
    split; [assumption|]. split; [|assumption].
    destruct Hs as [[-> _]|[-> _]]; [left | right]; split; try reflexivity; subst mid; lia.
  - destruct (runLoop_search e targetEpoch (Z.to_nat (head - 1)) (1, head)) as (hi & Hrun & Hhi).
    + unfold width. simpl. lia.
    + eexists. split; [exact Hrun|]. split; [|reflexivity].
      apply loopStep_None. assumption.
Qed.

(** C4 (mandatory verification after the search).  A height is returned
    only when it is the candidate the loop ended on and the epoch read
    there equals the target; when the two guards on the head pass and the
    epoch read at the candidate is anything else, the locator raises
    BoundarySearchInconsistent. *)
Theorem verification_before_return (api : Api) (targetEpoch : Z) :
  let lo := search (epochAt api) targetEpoch (1, headNumber api) in
  (forall h, findEpochStartBlock api targetEpoch = inr h ->
             h = lo /\ epochAt api h = Some (Int targetEpoch)) /\
  (forall cur, epochAt api (headNumber api) = Some cur ->
               gtNum targetEpoch cur = false ->
               epochAt api lo <> Some (Int targetEpoch) ->
               findEpochStartBlock api targetEpoch = inl BoundarySearchInconsistent).
Proof.
  intros lo. split.
  - intros h Hh. apply findEpochStartBlock_inr in Hh. exact Hh.
  - intros cur Hcur Hgt Hne. unfold findEpochStartBlock.
    rewrite Hcur, Hgt. fold lo.
    destruct (isEpoch (epochAt api lo) targetEpoch) eqn:Hv; [|reflexivity].
    apply isEpoch_true in Hv. contradiction.
Qed.

Lemma verification_before_return_witness :
  findEpochStartBlock skipping 1 = inl BoundarySearchInconsistent /\
  epochAt threeEpochs 3 = Some (Int 1).
Proof.
  split.
  - apply (proj2 (verification_before_return skipping 1) (Int 2)).
    + vm_compute. reflexivity.
    + vm_compute. reflexivity.
    + vm_compute. discriminate.
  - apply (proj1 (verification_before_return threeEpochs 1) 3).
    vm_compute. reflexivity.
Defined.

(** C1, as the specification states it, at a chain that skips an epoch:
    the oracle is non-decreasing, the head shows epoch 2, the target 1 lies
    in [0, 2], and the locator returns no height. *)
Lemma boundary_skipped_epoch :
  monotone (epochAt skipping) (headNumber skipping) /\
  epochAt skipping (headNumber skipping) = Some (Int 2) /\
  0 <= 1 <= 2 /\
  findEpochStartBlock skipping 1 = inl BoundarySearchInconsistent.
Proof.
  split; [apply monotoneb_sound; vm_compute; reflexivity|].
  split; [vm_compute; reflexivity|].
  split; [lia|]. vm_compute. reflexivity.
Qed.

(** C1 (boundary correctness), amended.  On a chain whose epoch oracle is
    non-decreasing over the heights 1..head (Absent below every epoch), for
    every target epoch that some height of 1..head shows, the locator
    returns a height [h] at which the epoch read is the target, and [h] is
    height 1 or the read at [h - 1] is Absent or strictly below the
    target. *)
Theorem boundary_correct (api : Api) (targetEpoch h0 : Z) :
  monotone (epochAt api) (headNumber api) ->
  1 <= h0 <= headNumber api ->
  epochAt api h0 = Some (Int targetEpoch) ->
  exists h, findEpochStartBlock api targetEpoch = inr h /\
            epochAt api h = Some (Int targetEpoch) /\
            (h = 1 \/ obsBelow targetEpoch (epochAt api (h - 1))).
Proof.
  intros Hmono Hh0 Ht.
  destruct (locate_monotone api targetEpoch h0 Hmono Hh0 Ht) as (h & Hh & Hb & Hlow).
  exists h. split; [assumption|].
  split; [apply findEpochStartBlock_inr in Hh; apply Hh|].
  destruct (Z.eq_dec h 1) as [|Hne]; [left; assumption|].
  right. apply Hlow. lia.
Qed.

Lemma boundary_correct_witness :
  exists h, findEpochStartBlock lateActivation 0 = inr h /\
            epochAt lateActivation h = Some (Int 0) /\
            (h = 1 \/ obsBelow 0 (epochAt lateActivation (h - 1))).
Proof.
  apply (boundary_correct lateActivation 0 12).
  - apply monotoneb_sound. vm_compute. reflexivity.
  - simpl. lia.
  - vm_compute. reflexivity.
Defined.

Example lateActivation_start : findEpochStartBlock lateActivation 0 = inr 10.
Proof. vm_compute. reflexivity. Qed.

(** C6, as the specification states it, at a chain whose first epoch is 3:
    the oracle is non-decreasing, the target 1 is at most the head epoch 3,
    and the locator fails. *)
Lemma locate_below_first_epoch :
  monotone (epochAt lateStart) (headNumber lateStart) /\
  epochAt lateStart (headNumber lateStart) = Some (Int 3) /\
  1 <= 3 /\
  findEpochStartBlock lateStart 1 = inl BoundarySearchInconsistent.
Proof.
  split; [apply monotoneb_sound; vm_compute; reflexivity|].
  split; [vm_compute; reflexivity|].
  split; [lia|]. vm_compute. reflexivity.
Qed.

(** C6 (failure conditions of the locator), amended.  The locator fails
    with EpochNotYetReached exactly when the head shows an epoch index
    below the target, and with EpochIndexUnavailable exactly when the head
    has no staking summary; on a monotonic chain it succeeds for every
    target that some height of 1..head shows. *)
Theorem locate_failure_conditions (api : Api) (targetEpoch : Z) :
  (findEpochStartBlock api targetEpoch = inl EpochNotYetReached <->
   exists cur, epochAt api (headNumber api) = Some (Int cur) /\ cur < targetEpoch) /\
  (findEpochStartBlock api targetEpoch = inl EpochIndexUnavailable <->
   epochAt api (headNumber api) = None) /\
  (monotone (epochAt api) (headNumber api) ->
   (exists h0, 1 <= h0 <= headNumber api /\ epochAt api h0 = Some (Int targetEpoch)) ->
   exists h, findEpochStartBlock api targetEpoch = inr h).
Proof.
  split; [|split].
  - unfold findEpochStartBlock.
    destruct (epochAt api (headNumber api)) as [[|cur]|]; simpl.
    + destruct (isEpoch _ _); split; try discriminate; intros (? & [=] & _).
    + destruct (Z.ltb_spec cur targetEpoch).
      * split; [eauto | reflexivity].
      * destruct (isEpoch _ _); split; try discriminate; intros (? & [= <-] & ?); lia.
    + split; [discriminate | intros (? & [=] & _)].
  - unfold findEpochStartBlock.
    destruct (epochAt api (headNumber api)) as [cur|]; [|split; reflexivity].
    destruct (gtNum targetEpoch cur); [split; discriminate|].
    destruct (isEpoch _ _); split; discriminate.
  - intros Hmono (h0 & Hh0 & Ht).
    destruct (locate_monotone api targetEpoch h0 Hmono Hh0 Ht) as (h & Hh & _).
    eauto.
Qed.

Lemma locate_failure_conditions_witness :
  findEpochStartBlock threeEpochs 3 = inl EpochNotYetReached /\
  exists h, findEpochStartBlock threeEpochs 2 = inr h.
Proof.
  split.
  - apply (proj1 (locate_failure_conditions threeEpochs 3)).
    exists 2. split; [vm_compute; reflexivity | lia].
  - apply (proj2 (proj2 (locate_failure_conditions threeEpochs 2))).
    + apply monotoneb_sound. vm_compute. reflexivity.
    + exists 5. split; [simpl; lia | vm_compute; reflexivity].
Defined.

(** ** Properties of the pipeline *)

Lemma flush_synced st : Synced st -> flush st = st.
Proof.
  unfold Synced, flush. intros ->.
  destruct (Nat.ltb_spec (length (rows st)) (length (rows st))); [lia | reflexivity].
Qed.

Lemma writeRows_synced st : Synced (writeRows st).
Proof. reflexivity. Qed.

Lemma initState_synced existing : Synced (initState existing).
Proof. reflexivity. Qed.

(** The three ways through the loop body. *)
Lemma epochBody_throw api d ep st err :
  findEpochStartBlock api ep = inl err -> epochBody api d ep st = inl err.
Proof. unfold epochBody. intros ->. reflexivity. Qed.

Lemma epochBody_skip api d ep st sb err :
  Synced st ->
  findEpochStartBlock api ep = inr sb ->
  findEpochStartBlock api (ep + 1) = inl err ->
  epochBody api d ep st = inr st.
Proof.
  unfold epochBody. intros Hs -> ->. rewrite flush_synced by assumption. reflexivity.
Qed.

Lemma epochBody_append api d ep st sb ns :
  findEpochStartBlock api ep = inr sb ->
  findEpochStartBlock api (ep + 1) = inr ns ->
  epochBody api d ep st =
  inr (writeRows (push (assemble d ep sb (ns - 1) (readSummaryAt api sb)
                                 (readSummaryAt api (ns - 1))) st)).
Proof. unfold epochBody. intros -> ->. reflexivity. Qed.

Lemma writesOf_last base new : new <> [] -> last (writesOf base new) = Some (base ++ new).
Proof.
  revert base. induction new as [|r new IH]; intros base Hne; [contradiction|].
  simpl. destruct new as [|r' new'].
  - reflexivity.
  - change (r :: r' :: new') with ([r] ++ r' :: new'). rewrite app_assoc.
    rewrite <- IH by discriminate. reflexivity.
Qed.

Lemma writesOf_prefixes base new :
  Forall (fun w => exists new', new' `prefix_of` new /\ w = base ++ new') (writesOf base new).
Proof.
  revert base. induction new as [|r new IH]; intros base; simpl; constructor.
  - exists [r]. split; [exists new; reflexivity | reflexivity].
  - eapply Forall_impl; [apply IH|]. simpl.
    intros w (new' & Hp & ->). exists (r :: new'). split.
    + apply prefix_cons, Hp.
    + rewrite <- app_assoc. reflexivity.
Qed.

(** What [n] iterations from epoch [ep] do to a state with nothing
    waiting to be written: they append rows of confirmed epochs of
    [ep .. ep + n - 1], in ascending order, and write the accumulated
    sequence after each of them. *)
Lemma epochLoop_spec api d n : forall ep st,
  Synced st ->
  let r := epochLoop api d n ep st in
  exists new,
    rows (final r) = rows st ++ new /\
    Synced (final r) /\
    written (final r) = written st ++ writesOf (rows st) new /\
    Forall (confirmed api d) new /\
    Forall (fun row => ep <= Row.epoch row < ep + Z.of_nat n) new /\
    ascending new.
Proof.
  induction n as [|n IH]; intros ep st Hs; simpl.
  - exists []. rewrite !app_nil_r. repeat split; try assumption; constructor.
  - destruct (findEpochStartBlock api ep) as [err|sb] eqn:Hsb.
    + rewrite (epochBody_throw _ _ _ _ _ Hsb). simpl.
      exists []. rewrite !app_nil_r. repeat split; try assumption; constructor.
    + destruct (findEpochStartBlock api (ep + 1)) as [err|ns] eqn:Hns.
      * rewrite (epochBody_skip _ _ _ _ _ _ Hs Hsb Hns).
        destruct (IH (ep + 1) st Hs) as (new & Hr & Hsy & Hw & Hc & Hb & Ha).
        exists new. repeat split; try assumption.
        eapply Forall_impl; [exact Hb|]. simpl. intros. lia.
      * rewrite (epochBody_append _ _ _ _ _ _ Hsb Hns).
        set (row := assemble d ep sb (ns - 1) _ _).
        destruct (IH (ep + 1) (writeRows (push row st)) (writeRows_synced _))
          as (new & Hr & Hsy & Hw & Hc & Hb & Ha).
        exists (row :: new). simpl in *.
        split; [rewrite Hr, <- app_assoc; reflexivity|].
        split; [assumption|].
        split; [rewrite Hw, <- app_assoc; reflexivity|].
        split; [constructor; [|assumption]|].
        { unfold confirmed. simpl. replace (ns - 1 + 1) with ns by lia. auto. }
        split; [constructor; [simpl; lia|]|].
        { eapply Forall_impl; [exact Hb|]. simpl. intros. lia. }
        unfold ascending. simpl. constructor; [exact Ha|].
        rewrite Forall_fmap. eapply Forall_impl; [exact Hb|]. simpl. intros. lia.
Qed.

(** The loop run for [a + b] iterations is the loop run for [a]
    iterations and, unless that threw, for [b] more. *)
Lemma epochLoop_app api d a b : forall ep st,
  epochLoop api d (a + b) ep st =
  let r := epochLoop api d a ep st in
  match thrown r with
  | Some _ => r
  | None => epochLoop api d b (ep + Z.of_nat a) (final r)
  end.
Proof.
  induction a as [|a IH]; intros ep st.
  - simpl. rewrite Z.add_0_r. reflexivity.
  - change (S a + b)%nat with (S (a + b)). simpl epochLoop at 1 2.
    destruct (epochBody api d ep st) as [err|st']; [reflexivity|].
    rewrite IH. replace (ep + 1 + Z.of_nat a) with (ep + Z.of_nat (S a)) by lia.
    reflexivity.
Qed.

Lemma pipeline_loop api d startEpoch endEpoch existing :
  let r := epochLoop api d (iterations startEpoch endEpoch) (firstEpoch startEpoch)
             (initState existing) in
  thrown (pipeline api d startEpoch endEpoch existing) = thrown r /\
  final (pipeline api d startEpoch endEpoch existing) = final r.
Proof.
  intros r. unfold pipeline. fold r.
  destruct (epochLoop_spec api d (iterations startEpoch endEpoch) (firstEpoch startEpoch)
              (initState existing) (initState_synced _)) as (new & _ & Hs & _).
  fold r in Hs. destruct (thrown r) eqn:Ht; simpl.
  - split; [assumption | reflexivity].
  - split; [reflexivity | apply flush_synced, Hs].
Qed.

(** What a run leaves: the existing rows followed by rows of confirmed
    epochs of the requested range, in ascending order, each written with
    everything before it as soon as it was appended. *)
Lemma pipeline_spec api d s e existing :
  let r := pipeline api d (Int s) (Int e) existing in
  exists new,
    rows (final r) = existing ++ new /\
    written (final r) = writesOf existing new /\
    Forall (confirmed api d) new /\
    Forall (fun row => s <= Row.epoch row <= e) new /\
    ascending new.
Proof.
  intros r. destruct (pipeline_loop api d (Int s) (Int e) existing) as [_ Hf].
  fold r in Hf. rewrite Hf. simpl.
  destruct (epochLoop_spec api d (Z.to_nat (e - s + 1)) s (initState existing)
              (initState_synced _)) as (new & Hr & _ & Hw & Hc & Hb & Ha).
  exists new. repeat split; try assumption.
  eapply Forall_impl; [exact Hb|]. simpl. intros. lia.
Qed.

Lemma ascending_NoDup (l : list Z) : StronglySorted Z.lt l -> NoDup l.
Proof.
  induction 1 as [|x l _ IH Hx]; constructor; [|assumption].
  intros Hin. rewrite Forall_forall in Hx. specialize (Hx _ Hin). lia.
Qed.

Lemma ascending_app existing new s :
  ascending existing ->
  Forall (fun row => Row.epoch row < s) existing ->
  Forall (fun row => s <= Row.epoch row) new ->
  ascending new ->
  ascending (existing ++ new).
Proof.
  unfold ascending. intros He Hlt Hge Hn. rewrite fmap_app.
  apply StronglySorted_app_2; try assumption.
  intros x1 x2 (r1 & -> & H1)%list_elem_of_fmap (r2 & -> & H2)%list_elem_of_fmap.
  rewrite Forall_forall in Hlt, Hge. specialize (Hlt _ H1). specialize (Hge _ H2). lia.
Qed.

Lemma ascending_prefix (l1 l2 : list Row.t) :
  l1 `prefix_of` l2 -> ascending l2 -> ascending l1.
Proof.
  intros [k ->]. unfold ascending. rewrite fmap_app. apply StronglySorted_app_1_l.
Qed.

(** C3 (no premature completion).  In every run, the rows appended to the
    existing ones all have their start height and their end height
    confirmed by the locator (the end through the start of the successor
    epoch), and every array written to the store is the existing rows
    followed by a prefix of them; so when locating epoch [N + 1] fails
    with EpochNotYetReached, no row appended or written by the run has
    epoch [N]. *)
Theorem no_premature_completion (api : Api) (d s e : Z) (existing : list Row.t) (N : Z) :
  findEpochStartBlock api (N + 1) = inl EpochNotYetReached ->
  let r := pipeline api d (Int s) (Int e) existing in
  exists new,
    rows (final r) = existing ++ new /\
    Forall (confirmed api d) new /\
    Forall (fun row => Row.epoch row <> N) new /\
    Forall (fun w => exists new', new' `prefix_of` new /\ w = existing ++ new')
           (written (final r)).
Proof.
  intros HN r.
  destruct (pipeline_spec api d s e existing) as (new & Hr & Hw & Hc & _ & _).
  fold r in Hr, Hw. exists new.
  split; [assumption|]. split; [assumption|]. split.
  - eapply Forall_impl; [exact Hc|]. simpl.
    intros row (_ & Hend & _) Heq. rewrite Heq in Hend. congruence.
  - rewrite Hw. apply writesOf_prefixes.
Qed.

Lemma no_premature_completion_witness :
  exists new,
    rows (final (pipeline threeEpochs 0 (Int 0) (Int 2) [])) = [] ++ new /\
    Forall (confirmed threeEpochs 0) new /\
    Forall (fun row => Row.epoch row <> 2) new /\
    Forall (fun w => exists new', new' `prefix_of` new /\ w = [] ++ new')
           (written (final (pipeline threeEpochs 0 (Int 0) (Int 2) []))).
Proof.
  apply (no_premature_completion threeEpochs 0 0 2 [] 2).
  vm_compute. reflexivity.
Defined.

(** The row of the [j]-th epoch of the loop is appended, at place [j],
    when the loop makes more than [j] iterations and the starts of the
    epochs up to the successor of the [j]-th are all found. *)
Lemma epochLoop_completed api d n : forall ep st j sb ns,
  Synced st ->
  (j < n)%nat ->
  (forall i, (i < j)%nat -> exists h, findEpochStartBlock api (ep + Z.of_nat i) = inr h) ->
  findEpochStartBlock api (ep + Z.of_nat j) = inr sb ->
  findEpochStartBlock api (ep + Z.of_nat j + 1) = inr ns ->
  exists new,
    rows (final (epochLoop api d n ep st)) = rows st ++ new /\
    new !! j = Some (assemble d (ep + Z.of_nat j) sb (ns - 1) (readSummaryAt api sb)
                              (readSummaryAt api (ns - 1))).
Proof.
  induction n as [|n IH]; intros ep st j sb ns Hs Hj Hprev Hsb Hns; [lia|].
  destruct j as [|j].
  - rewrite Z.add_0_r in Hsb, Hns |- *. simpl.
    rewrite (epochBody_append _ _ _ _ _ _ Hsb Hns).
    set (row := assemble d ep sb (ns - 1) _ _).
    destruct (epochLoop_spec api d n (ep + 1) (writeRows (push row st)) (writeRows_synced _))
      as (new & Hr & _).
    exists (row :: new). simpl in Hr. rewrite Hr, <- app_assoc. split; reflexivity.
  - destruct (Hprev O ltac:(lia)) as [sb0 Hsb0]. rewrite Z.add_0_r in Hsb0.
    assert (Hns0 : exists ns0, findEpochStartBlock api (ep + 1) = inr ns0).
    { destruct j as [|j'].
      - exists sb. rewrite <- Hsb. f_equal.
      - apply (Hprev 1%nat). lia. }
    destruct Hns0 as [ns0 Hns0]. simpl epochLoop.
    rewrite (epochBody_append _ _ _ _ _ _ Hsb0 Hns0).
    set (row0 := assemble d ep sb0 (ns0 - 1) _ _).
    destruct (IH (ep + 1) (writeRows (push row0 st)) j sb ns (writeRows_synced _))
      as (new & Hr & Hl).
    + lia.
    + intros i Hi. destruct (Hprev (S i) ltac:(lia)) as [h Hh].
      exists h. rewrite <- Hh. f_equal. lia.
    + rewrite <- Hsb. f_equal. lia.
    + rewrite <- Hns. f_equal. lia.
    + exists (row0 :: new). simpl in Hr. rewrite Hr, <- app_assoc.
      split; [reflexivity|]. simpl. rewrite Hl. do 2 f_equal. lia.
Qed.

(** C7 (incremental durability).  An iteration for an epoch whose start
    and whose successor's start are found appends the assembled row and
    at once writes the whole accumulated sequence.  After any number [k]
    of iterations the rows are the existing ones followed by the rows
    completed so far, all of confirmed epochs; the writes are one per
    completed row, each the whole sequence accumulated up to that row;
    once a row has been completed the store holds exactly the accumulated
    sequence; and every epoch completed so far is in it: for the [j]-th
    epoch of the range, [j < k], when the starts of the epochs before it,
    its own start and its successor's start are found, its assembled row
    is the [j]-th appended row and the store holds the existing rows
    followed by all appended rows. *)
Theorem incremental_durability (api : Api) (d : Z) (existing : list Row.t) (startEpoch : Z) :
  (forall ep st sb ns,
     findEpochStartBlock api ep = inr sb ->
     findEpochStartBlock api (ep + 1) = inr ns ->
     exists st', epochBody api d ep st = inr st' /\
       rows st' = rows st ++ [assemble d ep sb (ns - 1) (readSummaryAt api sb)
                                       (readSummaryAt api (ns - 1))] /\
       written st' = written st ++ [rows st']) /\
  (forall k,
     let r := epochLoop api d k startEpoch (initState existing) in
     exists new,
       rows (final r) = existing ++ new /\
       written (final r) = writesOf existing new /\
       (forall file, new <> [] -> fileAfter file (final r) = Some (existing ++ new)) /\
       Forall (confirmed api d) new /\
       forall j sb ns,
         (j < k)%nat ->
         (forall i, (i < j)%nat ->
            exists h, findEpochStartBlock api (startEpoch + Z.of_nat i) = inr h) ->
         findEpochStartBlock api (startEpoch + Z.of_nat j) = inr sb ->
         findEpochStartBlock api (startEpoch + Z.of_nat j + 1) = inr ns ->
         new !! j = Some (assemble d (startEpoch + Z.of_nat j) sb (ns - 1)
                                   (readSummaryAt api sb) (readSummaryAt api (ns - 1))) /\
         forall file, fileAfter file (final r) = Some (existing ++ new)).
Proof.
  split.
  - intros ep st sb ns Hsb Hns. eexists. split; [apply epochBody_append; eassumption|].
    split; reflexivity.
  - intros k r.
    destruct (epochLoop_spec api d k startEpoch (initState existing) (initState_synced _))
      as (new & Hr & _ & Hw & Hc & _).
    fold r in Hr, Hw. simpl in Hr, Hw. exists new.
    assert (Hfile : forall file, new <> [] ->
                      fileAfter file (final r) = Some (existing ++ new)).
    { intros file Hne. unfold fileAfter.
      rewrite Hw, writesOf_last by assumption. reflexivity. }
    split; [assumption|]. split; [assumption|]. split; [assumption|].
    split; [assumption|].
    intros j sb ns Hj Hprev Hsb Hns.
    destruct (epochLoop_completed api d k startEpoch (initState existing) j sb ns
                (initState_synced _) Hj Hprev Hsb Hns) as (new' & Hr' & Hl).
    fold r in Hr'. simpl in Hr'. rewrite Hr in Hr'. apply app_inv_head in Hr'. subst new'.
    split; [assumption|].
    intros file. apply Hfile. intros ->. discriminate.
Qed.

Lemma incremental_durability_witness :
  (exists st', epochBody threeEpochs 0 0 (initState []) = inr st' /\
     rows st' = [assemble 0 0 1 2 (readSummaryAt threeEpochs 1) (readSummaryAt threeEpochs 2)] /\
     written st' = [rows st']) /\
  exists new,
    rows (final (epochLoop threeEpochs 0 3 0 (initState []))) = [] ++ new /\
    new !! 1%nat = Some (assemble 0 (0 + Z.of_nat 1) 3 (5 - 1) (readSummaryAt threeEpochs 3)
                                  (readSummaryAt threeEpochs (5 - 1))) /\
    forall file, fileAfter file (final (epochLoop threeEpochs 0 3 0 (initState [])))
                 = Some ([] ++ new).
Proof.
  split.
  - apply (proj1 (incremental_durability threeEpochs 0 [] 0) 0 (initState []) 1 3).
    + vm_compute. reflexivity.
    + vm_compute. reflexivity.
  - destruct (proj2 (incremental_durability threeEpochs 0 [] 0) 3%nat)
      as (new & Hr & _ & _ & _ & Hdone).
    exists new. split; [exact Hr|].
    apply (Hdone 1%nat 3 5).
    + lia.
    + intros i Hi. assert (i = O) as -> by lia. exists 1. vm_compute. reflexivity.
    + vm_compute. reflexivity.
    + vm_compute. reflexivity.
Defined.

(** C9 (absent reads do not block a row).  For an epoch whose start and
    whose successor's start are found, the iteration appends the row
    assembled from the two snapshot reads and writes the accumulated
    sequence, whatever the reads return; a row assembled from an absent
    start read has no start hash, total stake or operator stakes, and one
    assembled from an absent end read has no end hash or rewards. *)
Theorem absent_reads_tolerated (api : Api) (d ep sb ns : Z) (st : RunState) :
  findEpochStartBlock api ep = inr sb ->
  findEpochStartBlock api (ep + 1) = inr ns ->
  let startSnap := readSummaryAt api sb in
  let endSnap := readSummaryAt api (ns - 1) in
  let row := assemble d ep sb (ns - 1) startSnap endSnap in
  (exists st', epochBody api d ep st = inr st' /\
     rows st' = rows st ++ [row] /\
     forall file, fileAfter file st' = Some (rows st ++ [row])) /\
  Row.epoch row = ep /\ Row.startBlock row = sb /\ Row.endBlock row = ns - 1 /\
  (endSnap = None -> Row.endHash row = None /\ Row.rewards row = None) /\
  (forall endSnap',
     let row' := assemble d ep sb (ns - 1) None endSnap' in
     Row.startHash row' = None /\ Row.totalStake row' = None /\
     Row.operatorStakes row' = None) /\
  (forall startSnap',
     let row' := assemble d ep sb (ns - 1) startSnap' None in
     Row.endHash row' = None /\ Row.rewards row' = None).
Proof.
  intros Hsb Hns startSnap endSnap row.
  split; [|split; [reflexivity|split; [reflexivity|split; [reflexivity|]]]].
  - eexists. split; [apply epochBody_append; eassumption|].
    split; [reflexivity|].
    intros file. unfold fileAfter. simpl. rewrite last_snoc. reflexivity.
  - split; [|split].
    + intros He. subst row. rewrite He. split; reflexivity.
    + intros endSnap'. simpl. repeat split.
    + intros startSnap'. simpl. repeat split.
Qed.

Lemma absent_reads_tolerated_witness :
  readSummaryAt gappy 4 = None /\
  exists st', epochBody gappy 0 0 (initState []) = inr st' /\
    forall file, fileAfter file st' =
      Some ([] ++ [assemble 0 0 3 (5 - 1) (readSummaryAt gappy 3)
                            (readSummaryAt gappy (5 - 1))]).
Proof.
  split; [reflexivity|].
  destruct (absent_reads_tolerated gappy 0 0 3 5 (initState []))
    as ((st' & Hb & _ & Hf) & _).
  - vm_compute. reflexivity.
  - vm_compute. reflexivity.
  - exists st'. split; [exact Hb | exact Hf].
Defined.

Example gappy_row :
  exists st', epochBody gappy 0 0 (initState []) = inr st' /\
    (Row.startBlock <$> rows st') = [3] /\
    (Row.endBlock <$> rows st') = [4] /\
    (Row.endHash <$> rows st') = [None] /\
    (Row.rewards <$> rows st') = [None] /\
    (Row.totalStake <$> rows st') = [Some "18446744073709551616"%string].
Proof. eexists. split; [vm_compute; reflexivity|]. vm_compute. repeat split. Qed.

(** C2, as the specification states it, at a requested range that ends
    past the head epoch: on the chain [threeEpochs] (head epoch 2) the run
    over the epochs 1..3 finds the start of epoch 2, fails to locate epoch
    3 with EpochNotYetReached, goes on to the iteration for epoch 3 and
    ends with that error instead of terminating normally. *)
Lemma not_yet_reached_raises :
  findEpochStartBlock threeEpochs 2 = inr 5 /\
  findEpochStartBlock threeEpochs 3 = inl EpochNotYetReached /\
  (main threeEpochs {| DOMAIN_ID := 0; FROM := Some (Number 1); TO := Number 3;
                       APPEND := false |} None).1 = Some EpochNotYetReached.
Proof. vm_compute. repeat split. Qed.

(** C2 (an epoch whose successor is not yet reached), amended.  When the
    run reaches epoch [ep], finds its start and fails to locate the start
    of [ep + 1] with EpochNotYetReached, it appends and writes nothing for
    [ep], and the store holds every row accumulated so far.  If [ep] is
    the last epoch of the requested range the run terminates normally; if
    the range goes on, the iteration for [ep + 1] raises
    EpochNotYetReached and the run ends with that error, the store
    unchanged. *)
Theorem not_yet_reached_stops (api : Api) (d startEpoch ep sb : Z) (existing : list Row.t) :
  startEpoch <= ep ->
  let before := epochLoop api d (Z.to_nat (ep - startEpoch)) startEpoch (initState existing) in
  thrown before = None ->
  findEpochStartBlock api ep = inr sb ->
  findEpochStartBlock api (ep + 1) = inl EpochNotYetReached ->
  pipeline api d (Int startEpoch) (Int ep) existing =
    {| thrown := None; final := final before |} /\
  (forall endEpoch, ep < endEpoch ->
     pipeline api d (Int startEpoch) (Int endEpoch) existing =
       {| thrown := Some EpochNotYetReached; final := final before |}) /\
  exists new,
    rows (final before) = existing ++ new /\
    Forall (fun row => Row.epoch row < ep) new /\
    forall file, new <> [] -> fileAfter file (final before) = Some (existing ++ new).
Proof.
  intros Hle before Hbefore Hsb Hns.
  destruct (epochLoop_spec api d (Z.to_nat (ep - startEpoch)) startEpoch (initState existing)
              (initState_synced _)) as (new & Hr & Hsy & Hw & _ & Hb & _).
  fold before in Hr, Hsy, Hw. simpl in Hr, Hw.
  assert (Hep : startEpoch + Z.of_nat (Z.to_nat (ep - startEpoch)) = ep) by lia.
  split; [|split].
  - unfold pipeline. simpl.
    replace (Z.to_nat (ep - startEpoch + 1)) with (Z.to_nat (ep - startEpoch) + 1)%nat by lia.
    rewrite epochLoop_app. fold before. simpl. rewrite Hbefore, Hep. simpl.
    rewrite (epochBody_skip _ _ _ _ _ _ Hsy Hsb Hns). simpl.
    rewrite flush_synced by assumption. reflexivity.
  - intros endEpoch Hlt. unfold pipeline. simpl.
    replace (Z.to_nat (endEpoch - startEpoch + 1))
      with (Z.to_nat (ep - startEpoch) + S (S (Z.to_nat (endEpoch - ep - 1))))%nat by lia.
    rewrite epochLoop_app. fold before. simpl. rewrite Hbefore, Hep.
    rewrite (epochBody_skip _ _ _ _ _ _ Hsy Hsb Hns).
    rewrite (epochBody_throw _ _ _ _ _ Hns). reflexivity.
  - exists new. split; [assumption|]. split.
    + eapply Forall_impl; [exact Hb|]. simpl. intros. lia.
    + intros file Hne. unfold fileAfter. rewrite Hw, writesOf_last by assumption.
      reflexivity.
Qed.

Lemma not_yet_reached_stops_witness :
  pipeline threeEpochs 0 (Int 1) (Int 2) [] =
    {| thrown := None; final := final (epochLoop threeEpochs 0 1 1 (initState [])) |} /\
  pipeline threeEpochs 0 (Int 1) (Int 3) [] =
    {| thrown := Some EpochNotYetReached;
       final := final (epochLoop threeEpochs 0 1 1 (initState [])) |}.
Proof.
  destruct (not_yet_reached_stops threeEpochs 0 1 2 5 []) as (Hlast & Hmore & _).
  - lia.
  - vm_compute. reflexivity.
  - vm_compute. reflexivity.
  - vm_compute. reflexivity.
  - split; [exact Hlast | apply Hmore; lia].
Defined.

(** C5, as the specification states it, at overlapping ranges: a first
    run over the epochs 0..1 and a resumed run over the epochs 1..2 on the
    first run's output leave two rows for epoch 1 in the store. *)
Lemma resume_overlap_duplicates :
  exists out1 out2,
    main threeEpochs {| DOMAIN_ID := 0; FROM := Some (Number 0); TO := Number 1;
                        APPEND := false |} None = (None, Some out1) /\
    main threeEpochs {| DOMAIN_ID := 0; FROM := Some (Number 1); TO := Current;
                        APPEND := true |} (Some out1) = (None, Some out2) /\
    Row.epoch <$> out2 = [0; 1; 1].
Proof.
  eexists. eexists. split; [vm_compute; reflexivity|].
  split; vm_compute; reflexivity.
Qed.

(** A first run that starts from an empty store leaves only epochs of its
    range, so a range that starts past its end starts past every epoch
    it persisted. *)
Lemma fresh_run_below api d s1 e1 s2 :
  e1 < s2 ->
  Forall (fun row => Row.epoch row < s2) (rows (final (pipeline api d (Int s1) (Int e1) []))).
Proof.
  intros Hlt. destruct (pipeline_spec api d s1 e1 []) as (new & -> & _ & _ & Hb & _).
  simpl. eapply Forall_impl; [exact Hb|]. simpl. intros. lia.
Qed.

(** C5 (resuming a run), amended.  Let a first run start from existing
    rows in ascending epoch order that all lie below its first epoch, and
    let a second run take the first run's full output as its existing
    rows and start at an epoch past every epoch in that output (as with a
    range adjacent to the first).  Then the final sequence of the second
    run, and every array it writes to the store, has strictly ascending
    epochs and so no epoch twice.  (A second range that overlaps the
    persisted epochs appends them again.) *)
Theorem resume_ascending (api1 api2 : Api) (d s1 e1 s2 e2 : Z) (existing : list Row.t) :
  ascending existing ->
  Forall (fun row => Row.epoch row < s1) existing ->
  let out1 := rows (final (pipeline api1 d (Int s1) (Int e1) existing)) in
  Forall (fun row => Row.epoch row < s2) out1 ->
  let run2 := pipeline api2 d (Int s2) (Int e2) out1 in
  ascending (rows (final run2)) /\
  NoDup (Row.epoch <$> rows (final run2)) /\
  Forall (fun w => ascending w /\ NoDup (Row.epoch <$> w)) (written (final run2)).
Proof.
  intros Hasc Hlow out1 Hout1 run2.
  assert (Hout1_asc : ascending out1).
  { subst out1. destruct (pipeline_spec api1 d s1 e1 existing) as (new & -> & _ & _ & Hb & Ha).
    apply ascending_app with (s := s1); try assumption.
    eapply Forall_impl; [exact Hb|]. simpl. intros. lia. }
  destruct (pipeline_spec api2 d s2 e2 out1) as (new & Hr & Hw & _ & Hb & Ha).
  fold run2 in Hr, Hw.
  assert (Hge : Forall (fun row => s2 <= Row.epoch row) new).
  { eapply Forall_impl; [exact Hb|]. simpl. intros. lia. }
  assert (Hall : ascending (out1 ++ new)) by (apply ascending_app with (s := s2); assumption).
  rewrite Hr, Hw. split; [assumption|]. split; [apply ascending_NoDup, Hall|].
  eapply Forall_impl; [apply writesOf_prefixes|]. simpl.
  intros w (new' & Hp & ->).
  assert (ascending (out1 ++ new')).
  { apply ascending_prefix with (l2 := out1 ++ new); [apply prefix_app, Hp | assumption]. }
  split; [assumption | apply ascending_NoDup; assumption].
Qed.

Lemma resume_ascending_witness :
  let out1 := rows (final (pipeline threeEpochs 0 (Int 0) (Int 0) [])) in
  let run2 := pipeline threeEpochs 0 (Int 1) (Int 2) out1 in
  ascending (rows (final run2)) /\
  NoDup (Row.epoch <$> rows (final run2)) /\
  Forall (fun w => ascending w /\ NoDup (Row.epoch <$> w)) (written (final run2)).
Proof.
  apply (resume_ascending threeEpochs threeEpochs 0 0 0 1 2 []).
  - constructor.
  - constructor.
  - apply fresh_run_below. lia.
Defined.

(** The scenario of the specification: the range 0..1 gives two rows that
    end at heights 99 and 199; the open epoch 2 gives none. *)
Example scenario_rows :
  let r := pipeline scenario 0 (Int 0) (Int 2) [] in
  thrown r = None /\
  (fun row => (Row.epoch row, Row.startBlock row, Row.endBlock row)) <$> rows (final r)
    = [(0, 1, 99); (1, 100, 199)] /\
  length (written (final r)) = 2%nat.
Proof. vm_compute. repeat split. Qed.

Example resume_adjacent_epochs :
  Row.epoch <$> rows (final (pipeline threeEpochs 0 (Int 1) (Int 2)
                               (rows (final (pipeline threeEpochs 0 (Int 0) (Int 0) [])))))
  = [0; 1].
Proof. vm_compute. reflexivity. Qed.

(** ** Large integers *)

Lemma toString_roundtrip n : parseBigInt (toString n) = Some n.
Proof.
  unfold parseBigInt, toString, NilZero.string_of_uint.
  assert (Hnn : N.to_uint n <> Nil).
  { destruct n; simpl; [discriminate | apply DecimalPos.Unsigned.to_uint_nonnil]. }
  destruct (N.to_uint n) eqn:Hd; try contradiction;
    rewrite <- Hd, NilEmpty.usu; simpl; f_equal; apply DecimalN.Unsigned.of_to.
Qed.

Lemma toString_inj a b : toString a = toString b -> a = b.
Proof.
  intros H. pose proof (toString_roundtrip a) as Ha.
  rewrite H, toString_roundtrip in Ha. congruence.
Qed.

Lemma entryValue_integer v n : entryInteger v = Some n -> entryValue v = toString n.
Proof.
  unfold entryInteger. intros H.
  destruct v as [|m|s|m]; try discriminate.
  - destruct (m <? 2 ^ 53)%N; [|discriminate]. injection H as ->. reflexivity.
  - injection H as ->. reflexivity.
Qed.

Lemma propValue_integer v n : propInteger v = Some n -> propValue v = Some (toString n).
Proof.
  unfold propInteger, propValue. intros H.
  destruct v as [|m|s|m]; try discriminate.
  - destruct (m <? 2 ^ 53)%N; [|discriminate]. injection H as ->. reflexivity.
  - destruct (startsWith0x s); [|discriminate]. rewrite H. reflexivity.
  - injection H as ->. reflexivity.
Qed.

Lemma entriesLoop_absent es : forall (out : Obj) key,
  (forall k v, (k, v) ∈ es -> toString k <> key) ->
  entriesLoop es out !! key = out !! key.
Proof.
  induction es as [|[k v] es IH]; intros out key Hk; simpl; [reflexivity|].
  rewrite IH by (intros; eapply Hk; right; eassumption).
  apply lookup_insert_ne. eapply Hk. left.
Qed.

Lemma entriesLoop_lookup es : forall (out : Obj) k v,
  NoDup es.*1 -> (k, v) ∈ es ->
  entriesLoop es out !! toString k = Some (entryValue v).
Proof.
  induction es as [|[k' v'] es IH]; intros out k v Hnd Hin; [inversion Hin|].
  simpl in *. apply NoDup_cons in Hnd as [Hk' Hnd].
  apply elem_of_cons in Hin as [[= <- <-]|Hin].
  - rewrite entriesLoop_absent; [apply lookup_insert_eq|].
    intros k2 v2 Hin2 Heq%toString_inj. subst k2.
    apply Hk'. apply list_elem_of_fmap. exists (k, v2). split; [reflexivity | assumption].
  - apply IH; assumption.
Qed.

Lemma entriesLoop_values (P : string -> Prop) es : forall out : Obj,
  map_Forall (fun _ => P) out ->
  Forall (fun kv => P (entryValue kv.2)) es ->
  map_Forall (fun _ => P) (entriesLoop es out).
Proof.
  induction es as [|[k v] es IH]; intros out Hout Hes; simpl; [assumption|].
  apply Forall_cons in Hes as [Hv Hes].
  apply IH; [|assumption]. apply map_Forall_insert_2; assumption.
Qed.

Lemma propsLoop_absent props : forall (out : Obj) key,
  key ∉ props.*1 -> propsLoop props out !! key = out !! key.
Proof.
  induction props as [|[k v] props IH]; intros out key Hk; simpl; [reflexivity|].
  apply not_elem_of_cons in Hk as [Hne Hk].
  destruct (propValue v); [|reflexivity].
  rewrite IH by assumption. apply lookup_insert_ne.
  intros ->. apply Hne. reflexivity.
Qed.

Lemma propsLoop_lookup props : forall (out : Obj) k v n,
  Forall (fun kv => is_Some (propInteger kv.2)) props ->
  NoDup props.*1 -> (k, v) ∈ props -> propInteger v = Some n ->
  propsLoop props out !! k = Some (toString n).
Proof.
  induction props as [|[k' v'] props IH]; intros out k v n Hall Hnd Hin Hn; [inversion Hin|].
  simpl in *. apply NoDup_cons in Hnd as [Hk' Hnd].
  apply Forall_cons in Hall as [[n' Hn'] Hall]. simpl in Hn'.
  rewrite (propValue_integer _ _ Hn').
  apply elem_of_cons in Hin as [[= <- <-]|Hin].
  - rewrite propsLoop_absent by assumption.
    rewrite lookup_insert_eq. congruence.
  - eapply IH; eassumption.
Qed.

Lemma propsLoop_values (P : string -> Prop) props : forall out : Obj,
  map_Forall (fun _ => P) out ->
  Forall (fun kv => forall s, propValue kv.2 = Some s -> P s) props ->
  map_Forall (fun _ => P) (propsLoop props out).
Proof.
  induction props as [|[k v] props IH]; intros out Hout Hps; simpl; [assumption|].
  apply Forall_cons in Hps as [Hv Hps]. simpl in Hv.
  destruct (propValue v) as [s|]; [|assumption].
  apply IH; [|assumption]. apply map_Forall_insert_2; auto.
Qed.

Lemma startsWith0x_inv s :
  startsWith0x s = true -> exists rest, s = String "0" (String "x" rest).
Proof.
  destruct s as [|a [|b rest]]; simpl; try discriminate;
    destruct a as [[] [] [] [] [] [] [] []]; try discriminate.
  destruct b as [[] [] [] [] [] [] [] []]; try discriminate.
  intros _. exists rest. reflexivity.
Qed.

Lemma trimTrailing_0x rest :
  trimTrailing (String "0" (String "x" rest)) = String "0" (String "x" (trimTrailing rest)).
Proof.
  change (trimTrailing (String "0" (String "x" rest)))
    with (match trimTrailing (String "x" rest) with
          | EmptyString => String "0" EmptyString
          | t => String "0" t
          end).
  change (trimTrailing (String "x" rest))
    with (match trimTrailing rest with
          | EmptyString => String "x" EmptyString
          | t => String "x" t
          end).
  destruct (trimTrailing rest); reflexivity.
Qed.

(** [BigInt] of a string that starts with ["0x"]: the digits after the
    prefix, trailing white space apart, read in base 16; there must be
    one at least. *)
Lemma BigInt_0x rest :
  BigInt (String "0" (String "x" rest)) =
  match trimTrailing rest with
  | EmptyString => None
  | ds => hexDigits ds 0%N
  end.
Proof.
  unfold BigInt. rewrite trimTrailing_0x. destruct (trimTrailing rest); reflexivity.
Qed.

Lemma hexDigit_lt c d : hexDigit c = Some d -> (d < 16)%N.
Proof.
  unfold hexDigit. cbv zeta.
  destruct (_ && _) eqn:H1.
  { apply andb_true_iff in H1 as [_ H1%N.leb_le]. intros Hd. injection Hd as Hd. lia. }
  clear H1. destruct (_ && _) eqn:H2.
  { apply andb_true_iff in H2 as [_ H2%N.leb_le]. intros Hd. injection Hd as Hd. lia. }
  clear H2. destruct (_ && _) eqn:H3; [|discriminate].
  apply andb_true_iff in H3 as [_ H3%N.leb_le]. intros Hd. injection Hd as Hd. lia.
Qed.

Lemma radixDigits_hex s : forall acc, Page.radixDigits 16 s acc = hexDigits s acc.
Proof.
  induction s as [|c s IH]; intros acc; simpl; [reflexivity|].
  destruct (hexDigit c) as [d|] eqn:Hd; [|reflexivity].
  pose proof (hexDigit_lt _ _ Hd) as Hlt. apply N.ltb_lt in Hlt. rewrite Hlt. apply IH.
Qed.

Lemma trimEnd_trimTrailing s : Page.trimEnd s = trimTrailing s.
Proof.
  induction s as [|c s IH]; simpl; [reflexivity|]. rewrite IH. reflexivity.
Qed.

(** On the strings that [mapToObj] passes to it, [BigInt] is the
    [BigInt] of the dashboard's formatters. *)
Lemma BigInt_StringToBigInt s :
  startsWith0x s = true -> Page.StringToBigInt s = Z.of_N <$> BigInt s.
Proof.
  intros [rest ->]%startsWith0x_inv. rewrite BigInt_0x.
  unfold Page.StringToBigInt.
  change (Page.trimStart (String "0" (String "x" rest))) with (String "0" (String "x" rest)).
  rewrite trimEnd_trimTrailing, trimTrailing_0x.
  destruct (trimTrailing rest) as [|c ds]; [reflexivity|].
  unfold Page.radixLiteral. rewrite radixDigits_hex. reflexivity.
Qed.

Example BigInt_literals :
  BigInt "0x10" = Some 16%N /\
  BigInt "0x10 " = Some 16%N /\
  BigInt "0xFf" = Some 255%N /\
  BigInt "0x" = None /\
  BigInt "0x " = None /\
  BigInt "0x1 0" = None /\
  BigInt "0xzz" = None.
Proof. repeat split; reflexivity. Qed.

(** C8 (round trip of large integers).  An arbitrary-precision unsigned
    integer printed in decimal parses back to itself, for every value
    (2^53 + 1 among them); a hexadecimal literal is stored as the decimal
    form of its value; every stake or reward of a table (read through
    [entries()] or through its JSON form, operator ids pairwise distinct)
    is stored under its operator id as a decimal string that parses back
    to the value, and every string stored is such a decimal form; the
    total stake of a snapshot is the decimal form of the value on chain.
    Wherever the chain holds a staking summary, the reader returns a
    snapshot whose two tables are those that [mapToObj] builds from the
    tables on chain and whose total stake, when the chain holds one, is
    its decimal form (and is absent otherwise); the row assembled from a
    start and an end snapshot carries the start's operator stakes and
    total stake and the end's rewards, in the same form. *)
Theorem large_integer_round_trip :
  (forall n, parseBigInt (toString n) = Some n) /\
  (toString (2 ^ 53 + 1) = "9007199254740993"%string /\
   parseBigInt "9007199254740993" = Some (2 ^ 53 + 1)%N) /\
  (forall s n, startsWith0x s = true -> BigInt s = Some n ->
     exists str, propValue (JString s) = Some str /\ decimalOf n str) /\
  (forall es k v n,
     NoDup es.*1 -> (k, v) ∈ es -> entryInteger v = Some n ->
     exists str, mapToObj (MEntries es) !! toString k = Some str /\ decimalOf n str) /\
  (forall es,
     Forall (fun kv => is_Some (entryInteger kv.2)) es ->
     map_Forall (fun _ str => exists n, decimalOf n str) (mapToObj (MEntries es))) /\
  (forall props k v n,
     Forall (fun kv => is_Some (propInteger kv.2)) props ->
     NoDup props.*1 -> (k, v) ∈ props -> propInteger v = Some n ->
     exists str, mapToObj (MObject props) !! k = Some str /\ decimalOf n str) /\
  (forall props,
     Forall (fun kv => is_Some (propInteger kv.2)) props ->
     map_Forall (fun _ str => exists n, decimalOf n str) (mapToObj (MObject props))) /\
  (forall api h snap str,
     readSummaryAt api h = Some snap -> Summary.totalStake snap = Some str ->
     exists s n, domainStakingSummary api h = Some s /\
                 nullish (currentTotalStake s) (s_totalStake s) = Some n /\
                 decimalOf n str) /\
  (forall api h s,
     domainStakingSummary api h = Some s ->
     exists snap,
       readSummaryAt api h = Some snap /\
       Summary.operatorStakes snap = mapToObj (currentOperators s) /\
       Summary.rewards snap = mapToObj (currentEpochRewards s) /\
       (forall n, nullish (currentTotalStake s) (s_totalStake s) = Some n ->
          exists str, Summary.totalStake snap = Some str /\ decimalOf n str) /\
       (nullish (currentTotalStake s) (s_totalStake s) = None ->
          Summary.totalStake snap = None)) /\
  (forall api d ep sb eb s1 s2,
     domainStakingSummary api sb = Some s1 ->
     domainStakingSummary api eb = Some s2 ->
     let row := assemble d ep sb eb (readSummaryAt api sb) (readSummaryAt api eb) in
     Row.operatorStakes row = Some (mapToObj (currentOperators s1)) /\
     Row.rewards row = Some (mapToObj (currentEpochRewards s2)) /\
     (forall n, nullish (currentTotalStake s1) (s_totalStake s1) = Some n ->
        exists str, Row.totalStake row = Some str /\ decimalOf n str) /\
     (nullish (currentTotalStake s1) (s_totalStake s1) = None ->
        Row.totalStake row = None)).
Proof.
  assert (Hdec : forall n, decimalOf n (toString n))
    by (intros n; split; [reflexivity | apply toString_roundtrip]).
  split; [exact toString_roundtrip|].
  split; [split; vm_compute; reflexivity|].
  split.
  { intros s n Hx Hs. exists (toString n). split; [|apply Hdec].
    simpl. rewrite Hx, Hs. reflexivity. }
  split.
  { intros es k v n Hnd Hin Hn. exists (toString n). split; [|apply Hdec].
    simpl. rewrite (entriesLoop_lookup es ∅ k v Hnd Hin).
    f_equal. apply entryValue_integer, Hn. }
  split.
  { intros es Hall. simpl. apply entriesLoop_values; [apply map_Forall_empty|].
    eapply Forall_impl; [exact Hall|]. simpl.
    intros [k v] [n Hn]. simpl in *. exists n.
    rewrite (entryValue_integer _ _ Hn). apply Hdec. }
  split.
  { intros props k v n Hall Hnd Hin Hn. exists (toString n). split; [|apply Hdec].
    simpl. eapply propsLoop_lookup; eassumption. }
  split.
  { intros props Hall. simpl. apply propsLoop_values; [apply map_Forall_empty|].
    eapply Forall_impl; [exact Hall|]. simpl.
    intros [k v] [n Hn] s Hs. simpl in *. exists n.
    rewrite (propValue_integer _ _ Hn) in Hs. injection Hs as <-. apply Hdec. }
  split.
  { intros api h snap str Hread Hts. unfold readSummaryAt in Hread.
    destruct (domainStakingSummary api h) as [s|]; [|discriminate].
    injection Hread as <-. simpl in Hts.
    destruct (nullish (currentTotalStake s) (s_totalStake s)) as [n|] eqn:Hn; [|discriminate].
    injection Hts as <-. exists s, n. split; [reflexivity|]. split; [exact Hn | apply Hdec]. }
  split.
  { intros api h s Hs. unfold readSummaryAt. rewrite Hs. eexists. split; [reflexivity|].
    simpl. split; [reflexivity|]. split; [reflexivity|]. split.
    - intros n Hn. rewrite Hn. exists (toString n). split; [reflexivity | apply Hdec].
    - intros Hn. rewrite Hn. reflexivity. }
  intros api d ep sb eb s1 s2 Hs1 Hs2 row. subst row.
  unfold assemble, readSummaryAt. rewrite Hs1, Hs2. simpl.
  split; [reflexivity|]. split; [reflexivity|]. split.
  - intros n Hn. rewrite Hn. exists (toString n). split; [reflexivity | apply Hdec].
  - intros Hn. rewrite Hn. reflexivity.
Qed.

Lemma large_integer_round_trip_witness :
  (exists str, mapToObj (MEntries [(0%N, JCodec (2 ^ 60)%N); (1%N, JCodec (2 ^ 63 + 1)%N)])
                 !! toString 1 = Some str /\ decimalOf (2 ^ 63 + 1) str) /\
  (exists str, propValue (JString "0x20000000000001") = Some str /\
               decimalOf (2 ^ 53 + 1) str).
Proof.
  destruct large_integer_round_trip as (_ & _ & Hhex & Hent & _).
  split.
  - apply (Hent _ 1%N (JCodec (2 ^ 63 + 1)%N)).
    + apply (bool_decide_unpack _). vm_compute. exact Logic.I.
    + right. left.
    + reflexivity.
  - apply Hhex; vm_compute; reflexivity.
Defined.

Example hex_reward_is_decimal :
  mapToObj (MObject [("0"%string, JString "0x2386f26fc10000"); ("1"%string, JNumber 7)])
    !! "0"%string = Some "10000000000000000"%string.
Proof. vm_compute. reflexivity. Qed.

Example scenario_row_values :
  let row := assemble 0 1 100 199 (readSummaryAt scenario 100) (readSummaryAt scenario 199) in
  Row.totalStake row = Some "18446744073709551617"%string /\
  Row.operatorStakes row ≫= (.!! "1"%string) = Some "9223372036854775809"%string /\
  Row.rewards row ≫= (.!! "0"%string) = Some "10000000000000000"%string.
Proof. vm_compute. repeat split; reflexivity. Qed.

(** ** Further properties of the locator *)

Lemma search_within e t lo hi :
  lo <= hi -> lo <= search e t (lo, hi) <= hi.
Proof.
  intros Hle.
  destruct (search_invariant e t (fun s => lo <= s.1 /\ s.1 <= s.2 /\ s.2 <= hi))
    with (s := (lo, hi)) as (hi' & (H1 & H2 & H3) & H4).
  - intros [a b] s' (Ha & Hab & Hb) Hs. simpl in *.
    apply loopStep_cases in Hs as [Hlt Hs].
    pose proof (mid_bounds a b Hlt).
    destruct Hs as [[-> _]|[-> _]]; simpl; lia.
  - simpl. lia.
  - simpl in *. lia.
Qed.

Lemma search_empty e t lo hi : hi <= lo -> search e t (lo, hi) = lo.
Proof.
  intros Hle. rewrite search_loop.
  replace (loopStep e t (lo, hi)) with (@None (Z * Z)); [reflexivity|].
  symmetry. apply loopStep_None. assumption.
Qed.

Lemma locate_bounds api t h :
  findEpochStartBlock api t = inr h ->
  1 <= h /\ (h <= headNumber api \/ headNumber api < 1 /\ h = 1).
Proof.
  intros [-> _]%findEpochStartBlock_inr.
  destruct (Z.le_gt_cases 1 (headNumber api)) as [Hle|Hgt].
  - pose proof (search_within (epochAt api) t 1 (headNumber api) Hle). lia.
  - rewrite search_empty by lia. lia.
Qed.

(** X1 (the locator stays on the chain).  A height returned by the
    locator is at least 1 and at most the head height; on a chain whose
    head is below height 1 the only height it can return is 1. *)
Theorem locate_within_range (api : Api) (targetEpoch h : Z) :
  findEpochStartBlock api targetEpoch = inr h ->
  1 <= h /\ (h <= headNumber api \/ headNumber api < 1 /\ h = 1).
Proof. apply locate_bounds. Qed.

Lemma locate_within_range_witness :
  1 <= 100 /\ (100 <= headNumber scenario \/ headNumber scenario < 1 /\ 100 = 1).
Proof.
  apply (locate_within_range scenario 1 100). vm_compute. reflexivity.
Defined.

Lemma locate_first api t h :
  monotone (epochAt api) (headNumber api) ->
  findEpochStartBlock api t = inr h ->
  forall h', 1 <= h' < h -> obsBelow t (epochAt api h').
Proof.
  intros Hmono Hh h' Hh'.
  pose proof (locate_bounds _ _ _ Hh) as [H1 Hb].
  pose proof (findEpochStartBlock_inr _ _ _ Hh) as [_ Heh].
  destruct Hb as [Hb|[_ ->]]; [|lia].
  destruct (locate_monotone api t h Hmono ltac:(lia) Heh) as (h2 & Hh2 & _ & Hlow).
  rewrite Hh in Hh2. injection Hh2 as <-. apply Hlow. assumption.
Qed.

(** X2 (least height).  On a chain whose epoch oracle is non-decreasing,
    the height the locator returns for a target epoch is the least height
    that shows it: every height of the chain below it shows no summary or
    a smaller epoch, and none shows the target. *)
Theorem locate_least (api : Api) (targetEpoch h : Z) :
  monotone (epochAt api) (headNumber api) ->
  findEpochStartBlock api targetEpoch = inr h ->
  epochAt api h = Some (Int targetEpoch) /\
  forall h', 1 <= h' < h ->
    obsBelow targetEpoch (epochAt api h') /\ epochAt api h' <> Some (Int targetEpoch).
Proof.
  intros Hmono Hh. split; [apply findEpochStartBlock_inr in Hh; apply Hh|].
  intros h' Hh'. pose proof (locate_first api targetEpoch h Hmono Hh h' Hh') as Hb.
  split; [assumption|]. intros Heq. rewrite Heq in Hb. simpl in Hb. lia.
Qed.

Lemma locate_least_witness :
  epochAt scenario 200 = Some (Int 2) /\
  forall h', 1 <= h' < 200 ->
    obsBelow 2 (epochAt scenario h') /\ epochAt scenario h' <> Some (Int 2).
Proof.
  apply (locate_least scenario 2 200).
  - apply monotoneb_sound. vm_compute. reflexivity.
  - vm_compute. reflexivity.
Defined.

Lemma loopStep_halves e t s s' :
  loopStep e t s = Some s' -> s'.2 - s'.1 <= (s.2 - s.1) / 2.
Proof.
  destruct s as [lo hi]. intros Hs. apply loopStep_cases in Hs as [Hlt Hs].
  assert (Hm : lo + hi = 2 * ((lo + hi) / 2) + (lo + hi) mod 2) by (apply Z.div_mod; lia).
  assert (Hw : hi - lo = 2 * ((hi - lo) / 2) + (hi - lo) mod 2) by (apply Z.div_mod; lia).
  pose proof (Z.mod_pos_bound (lo + hi) 2 ltac:(lia)).
  pose proof (Z.mod_pos_bound (hi - lo) 2 ltac:(lia)).
  destruct Hs as [[-> _]|[-> _]]; simpl; lia.
Qed.

Lemma runLoop_log e t k : forall s,
  s.2 - s.1 < 2 ^ Z.of_nat k ->
  exists hi, runLoop e t k s = Some (search e t s, hi) /\ hi <= search e t s.
Proof.
  induction k as [|k IH]; intros s Hw; rewrite search_loop; simpl runLoop.
  - destruct s as [lo hi]. simpl in Hw.
    replace (loopStep e t (lo, hi)) with (@None (Z * Z))
      by (symmetry; apply loopStep_None; lia).
    exists hi. simpl. split; [reflexivity | lia].
  - destruct (loopStep e t s) as [s'|] eqn:Hs.
    + apply IH. pose proof (loopStep_halves _ _ _ _ Hs) as Hh.
      assert (Hpow : 2 ^ Z.of_nat (S k) = 2 * 2 ^ Z.of_nat k)
        by (rewrite Nat2Z.inj_succ, Z.pow_succ_r by lia; reflexivity).
      assert ((s.2 - s.1) / 2 < 2 ^ Z.of_nat k)
        by (apply Z.div_lt_upper_bound; lia).
      lia.
    + destruct s as [lo hi]. apply loopStep_None in Hs. exists hi. simpl. auto.
Qed.

(** X3 (logarithmic number of probes).  For every oracle and target, on a
    chain with head height [head >= 1] the search loop leaves its guard
    after at most [ceil (log2 head)] iterations, that is, after that many
    reads of the epoch oracle. *)
Theorem search_logarithmic (e : Z -> option JsNum) (targetEpoch head : Z) :
  1 <= head ->
  exists fin,
    runLoop e targetEpoch (Z.to_nat (Z.log2_up head)) (1, head) = Some fin /\
    loopStep e targetEpoch fin = None /\
    fin.1 = search e targetEpoch (1, head).
Proof.
  intros Hhead.
  destruct (runLoop_log e targetEpoch (Z.to_nat (Z.log2_up head)) (1, head))
    as (hi & Hrun & Hhi).
  - cbn [fst snd]. rewrite Z2Nat.id by apply Z.log2_up_nonneg.
    destruct (Z.eq_dec head 1) as [->|Hne]; [reflexivity|].
    pose proof (Z.log2_up_spec head ltac:(lia)). lia.
  - eexists. split; [exact Hrun|]. split; [|reflexivity].
    apply loopStep_None. assumption.
Qed.

Lemma search_logarithmic_witness :
  exists fin,
    runLoop (epochAt scenario) 1 8 (1, 250) = Some fin /\
    loopStep (epochAt scenario) 1 fin = None /\
    fin.1 = search (epochAt scenario) 1 (1, 250).
Proof.
  apply (search_logarithmic (epochAt scenario) 1 250). lia.
Defined.

(** ** Further properties of the pipeline *)

Lemma epochBody_found api d ep st sb :
  findEpochStartBlock api ep = inr sb -> exists st', epochBody api d ep st = inr st'.
Proof.
  unfold epochBody. intros ->. destruct (findEpochStartBlock api (ep + 1)); eauto.
Qed.

(** The rows that the loop appends are those of a gap-free run of epochs
    that starts at the first epoch of the loop. *)
Lemma epochLoop_epochs api d n : forall ep st,
  Synced st ->
  exists new,
    rows (final (epochLoop api d n ep st)) = rows st ++ new /\
    written (final (epochLoop api d n ep st)) = written st ++ writesOf (rows st) new /\
    Row.epoch <$> new = seqZ ep (Z.of_nat (length new)) /\
    (length new <= n)%nat /\
    Forall (confirmed api d) new.
Proof.
  induction n as [|n IH]; intros ep st Hs.
  - exists []. simpl. rewrite !app_nil_r. repeat split; try constructor.
  - simpl. destruct (findEpochStartBlock api ep) as [err|sb] eqn:Hsb.
    + rewrite (epochBody_throw _ _ _ _ _ Hsb). simpl.
      exists []. simpl. rewrite !app_nil_r. repeat split; try constructor; lia.
    + destruct (findEpochStartBlock api (ep + 1)) as [err|ns] eqn:Hns.
      * rewrite (epochBody_skip _ _ _ _ _ _ Hs Hsb Hns).
        exists []. simpl. rewrite !app_nil_r.
        destruct n as [|n]; simpl; [|rewrite (epochBody_throw _ _ _ _ _ Hns); simpl];
          repeat split; try constructor; lia.
      * rewrite (epochBody_append _ _ _ _ _ _ Hsb Hns).
        set (row := assemble d ep sb (ns - 1) _ _).
        destruct (IH (ep + 1) (writeRows (push row st)) (writeRows_synced _))
          as (new & Hr & Hw & He & Hl & Hc).
        exists (row :: new). simpl in Hr, Hw.
        split; [rewrite Hr, <- app_assoc; reflexivity|].
        split; [rewrite Hw, <- app_assoc; reflexivity|].
        split.
        { rewrite fmap_cons, He, length_cons, (seqZ_cons ep) by lia.
          f_equal. f_equal; lia. }
        split; [simpl; lia|]. constructor; [|assumption].
        unfold confirmed. simpl. replace (ns - 1 + 1) with ns by lia. auto.
Qed.

Lemma pipeline_epochs api d s e existing :
  exists new,
    rows (final (pipeline api d (Int s) (Int e) existing)) = existing ++ new /\
    written (final (pipeline api d (Int s) (Int e) existing)) = writesOf existing new /\
    Row.epoch <$> new = seqZ s (Z.of_nat (length new)) /\
    (length new <= Z.to_nat (e - s + 1))%nat /\
    Forall (confirmed api d) new.
Proof.
  destruct (pipeline_loop api d (Int s) (Int e) existing) as [_ ->]. simpl.
  apply (epochLoop_epochs api d _ s (initState existing)), initState_synced.
Qed.

(** X4 (the appended rows tile the chain).  The rows a run appends are
    those of consecutive epochs, starting with the first epoch of the
    requested range and without a gap; each row after the first starts at
    the height that follows the end of the row before it. *)
Theorem rows_contiguous (api : Api) (d s e : Z) (existing : list Row.t) :
  exists new,
    rows (final (pipeline api d (Int s) (Int e) existing)) = existing ++ new /\
    Row.epoch <$> new = seqZ s (Z.of_nat (length new)) /\
    forall i r1 r2, new !! i = Some r1 -> new !! S i = Some r2 ->
      Row.epoch r2 = Row.epoch r1 + 1 /\ Row.startBlock r2 = Row.endBlock r1 + 1.
Proof.
  destruct (pipeline_epochs api d s e existing) as (new & Hr & _ & He & _ & Hc).
  exists new. split; [assumption|]. split; [assumption|].
  intros i r1 r2 H1 H2.
  assert (He1 : Row.epoch r1 = s + Z.of_nat i).
  { assert (Hl : (Row.epoch <$> new) !! i = Some (Row.epoch r1))
      by (rewrite list_lookup_fmap, H1; reflexivity).
    rewrite He in Hl. apply lookup_seqZ in Hl. lia. }
  assert (He2 : Row.epoch r2 = s + Z.of_nat (S i)).
  { assert (Hl : (Row.epoch <$> new) !! S i = Some (Row.epoch r2))
      by (rewrite list_lookup_fmap, H2; reflexivity).
    rewrite He in Hl. apply lookup_seqZ in Hl. lia. }
  split; [lia|].
  rewrite Forall_forall in Hc.
  destruct (Hc r1 (list_elem_of_lookup_2 _ _ _ H1)) as (_ & Hend & _).
  destruct (Hc r2 (list_elem_of_lookup_2 _ _ _ H2)) as (Hstart & _).
  replace (Row.epoch r2) with (Row.epoch r1 + 1) in Hstart by lia.
  rewrite Hend in Hstart. injection Hstart as Heq. lia.
Qed.

Lemma confirmed_ordered api d row :
  monotone (epochAt api) (headNumber api) ->
  confirmed api d row ->
  1 <= Row.startBlock row /\ Row.startBlock row <= Row.endBlock row /\
  Row.endBlock row < headNumber api.
Proof.
  intros Hmono (Hs & He & _).
  pose proof (locate_bounds _ _ _ Hs) as [Hs1 Hsb].
  pose proof (locate_bounds _ _ _ He) as [He1 Heb].
  apply findEpochStartBlock_inr in Hs as [_ Hes].
  apply findEpochStartBlock_inr in He as [_ Hee].
  assert (Hhead : 1 <= headNumber api).
  { destruct Hsb as [|[Hlt Hs']]; [lia|]. destruct Heb as [|[_ He']]; [lia|].
    rewrite Hs' in Hes. rewrite He' in Hee. rewrite Hes in Hee.
    injection Hee as Hee. lia. }
  destruct Hsb as [Hsb|]; [|lia]. destruct Heb as [Heb|]; [|lia].
  split; [assumption|]. split; [|lia].
  destruct (Z.le_gt_cases (Row.endBlock row + 1) (Row.startBlock row)) as [Hle|]; [|lia].
  pose proof (Hmono _ _ He1 Hle Hsb) as Hm.
  rewrite Hee, Hes in Hm. simpl in Hm. apply Z.leb_le in Hm. lia.
Qed.

(** X5 (start before end).  On a chain whose epoch oracle is
    non-decreasing, every row that a run appends has its start height on
    the chain, its end height not below its start height, and its end
    height below the head. *)
Theorem rows_start_before_end (api : Api) (d s e : Z) (existing : list Row.t) :
  monotone (epochAt api) (headNumber api) ->
  exists new,
    rows (final (pipeline api d (Int s) (Int e) existing)) = existing ++ new /\
    Forall (fun row => 1 <= Row.startBlock row /\
                       Row.startBlock row <= Row.endBlock row /\
                       Row.endBlock row < headNumber api) new.
Proof.
  intros Hmono.
  destruct (pipeline_epochs api d s e existing) as (new & Hr & _ & _ & _ & Hc).
  exists new. split; [assumption|].
  eapply Forall_impl; [exact Hc|]. intros row. apply confirmed_ordered, Hmono.
Qed.

Lemma rows_start_before_end_witness :
  exists new,
    rows (final (pipeline threeEpochs 0 (Int 0) (Int 2) [])) = [] ++ new /\
    Forall (fun row => 1 <= Row.startBlock row /\
                       Row.startBlock row <= Row.endBlock row /\
                       Row.endBlock row < headNumber threeEpochs) new.
Proof.
  apply (rows_start_before_end threeEpochs 0 0 2 []).
  apply monotoneb_sound. vm_compute. reflexivity.
Defined.

(** X6 (a row always carries its start snapshot).  For every row that a
    run appends, the read at the start height found a summary whose epoch
    index is the row's epoch; the row holds the hash of the start block,
    the total stake of that summary and its operator stakes.  (Only the
    end read of a row can be absent.) *)
Theorem rows_have_start_snapshot (api : Api) (d s e : Z) (existing : list Row.t) :
  exists new,
    rows (final (pipeline api d (Int s) (Int e) existing)) = existing ++ new /\
    Forall (fun row =>
      exists snap,
        readSummaryAt api (Row.startBlock row) = Some snap /\
        Summary.epoch snap = Int (Row.epoch row) /\
        Row.startHash row = Some (getBlockHash api (Row.startBlock row)) /\
        Row.totalStake row = Summary.totalStake snap /\
        Row.operatorStakes row = Some (Summary.operatorStakes snap)) new.
Proof.
  destruct (pipeline_epochs api d s e existing) as (new & Hr & _ & _ & _ & Hc).
  exists new. split; [assumption|].
  eapply Forall_impl; [exact Hc|]. simpl.
  intros row (Hs & _ & Hrow).
  apply findEpochStartBlock_inr in Hs as [_ Hes]. unfold epochAt in Hes.
  destruct (readSummaryAt api (Row.startBlock row)) as [snap|] eqn:Hsnap; [|discriminate].
  exists snap. injection Hes as Hes.
  split; [reflexivity|]. split; [assumption|].
  pose proof (f_equal Row.startHash Hrow) as Hh.
  pose proof (f_equal Row.totalStake Hrow) as Ht.
  pose proof (f_equal Row.operatorStakes Hrow) as Ho.
  simpl in Hh, Ht, Ho.
  split; [|split; assumption].
  rewrite Hh. f_equal. unfold readSummaryAt in Hsnap.
  destruct (domainStakingSummary api (Row.startBlock row)); [|discriminate].
  injection Hsnap as <-. reflexivity.
Qed.

Lemma pipeline_writes api d startEpoch endEpoch existing :
  exists new,
    rows (final (pipeline api d startEpoch endEpoch existing)) = existing ++ new /\
    written (final (pipeline api d startEpoch endEpoch existing)) = writesOf existing new /\
    Forall (confirmed api d) new.
Proof.
  destruct (pipeline_loop api d startEpoch endEpoch existing) as [_ ->].
  destruct (epochLoop_spec api d (iterations startEpoch endEpoch) (firstEpoch startEpoch)
              (initState existing) (initState_synced _)) as (new & Hr & _ & Hw & Hc & _).
  exists new. repeat split; assumption.
Qed.

(** X7 (what a run leaves in the output file).  Whether [main] ends
    normally or with an error, the file afterwards is either untouched
    (no epoch was completed, the file may still be missing) or holds the
    rows the run started from followed by at least one new row, all new
    rows being of confirmed epochs.  The rows a run starts from are the
    old content of the file with [--append] and none without it: an
    appending run never drops a persisted row, a run without [--append]
    that completes an epoch discards the old content. *)
Theorem main_output_file (api : Api) (cfg : Config) (file : option (list Row.t)) :
  let existing := if APPEND cfg then default [] file else [] in
  (main api cfg file).2 = file \/
  exists new, new <> [] /\
    (main api cfg file).2 = Some (existing ++ new) /\
    Forall (confirmed api (DOMAIN_ID cfg)) new.
Proof.
  intros existing. unfold main.
  destruct (epochAt api (headNumber api)) as [headEpoch|]; [|left; reflexivity].
  set (startEpoch := match FROM cfg with
                     | Some Current => headEpoch | Some (Number z) => Int z | None => Int 0
                     end).
  set (endEpoch := match TO cfg with Current => headEpoch | Number z => Int z end).
  assert (Hex : match file with
                | Some content => if APPEND cfg then content else []
                | None => []
                end = existing).
  { subst existing. destruct file, (APPEND cfg); reflexivity. }
  rewrite Hex. cbn [snd].
  destruct (pipeline_writes api (DOMAIN_ID cfg) startEpoch endEpoch existing)
    as (new & _ & Hw & Hc).
  unfold fileAfter. rewrite Hw.
  destruct new as [|row new]; [left; reflexivity|].
  right. exists (row :: new). split; [discriminate|].
  rewrite writesOf_last by discriminate. split; [reflexivity | assumption].
Qed.

Lemma epochLoop_all_found api d n : forall ep st,
  Synced st ->
  (forall k, (0 < n)%nat -> (k <= n)%nat ->
     exists h, findEpochStartBlock api (ep + Z.of_nat k) = inr h) ->
  thrown (epochLoop api d n ep st) = None /\
  length (rows (final (epochLoop api d n ep st))) = (length (rows st) + n)%nat.
Proof.
  induction n as [|n IH]; intros ep st Hs Hall; simpl; [split; [reflexivity | lia]|].
  destruct (Hall O ltac:(lia) ltac:(lia)) as [sb Hsb]. rewrite Z.add_0_r in Hsb.
  destruct (Hall 1%nat ltac:(lia) ltac:(lia)) as [ns Hns]. change (Z.of_nat 1) with 1 in Hns.
  rewrite (epochBody_append _ _ _ _ _ _ Hsb Hns).
  destruct (IH (ep + 1) (writeRows (push (assemble d ep sb (ns - 1) (readSummaryAt api sb)
                                            (readSummaryAt api (ns - 1))) st))
              (writeRows_synced _)) as [Ht Hl].
  - intros k _ Hk. destruct (Hall (S k) ltac:(lia) ltac:(lia)) as [h Hh].
    exists h. rewrite <- Hh. f_equal. lia.
  - split; [assumption|]. rewrite Hl. simpl. rewrite length_app. simpl. lia.
Qed.

(** X8 (a fully observed range is extracted whole).  On a chain whose
    epoch oracle is non-decreasing, when every epoch from the first of
    the requested range to the successor of the last is shown by some
    height of the chain, the run ends normally and appends exactly one
    row for each epoch of the range, in order, writing the accumulated
    sequence after each. *)
Theorem complete_range (api : Api) (d s e : Z) (existing : list Row.t) :
  monotone (epochAt api) (headNumber api) ->
  (forall ep, s <= ep <= e + 1 ->
     exists h, 1 <= h <= headNumber api /\ epochAt api h = Some (Int ep)) ->
  let r := pipeline api d (Int s) (Int e) existing in
  thrown r = None /\
  exists new,
    rows (final r) = existing ++ new /\
    Row.epoch <$> new = seqZ s (e - s + 1) /\
    written (final r) = writesOf existing new.
Proof.
  intros Hmono Hall r.
  destruct (pipeline_loop api d (Int s) (Int e) existing) as [Ht Hf].
  fold r in Ht, Hf. simpl in Ht, Hf.
  destruct (epochLoop_all_found api d (Z.to_nat (e - s + 1)) s (initState existing)
              (initState_synced _)) as [Hnone Hlen].
  { intros k Hpos Hk. destruct (Hall (s + Z.of_nat k) ltac:(lia)) as (h0 & Hh0 & He0).
    destruct (locate_monotone api _ h0 Hmono Hh0 He0) as (h & Hh & _). eauto. }
  destruct (epochLoop_epochs api d (Z.to_nat (e - s + 1)) s (initState existing)
              (initState_synced _)) as (new & Hr & Hw & He & _ & _).
  rewrite <- Hf in Hr, Hw, Hlen. simpl in Hr, Hw, Hlen.
  split; [congruence|]. exists new. split; [assumption|]. split; [|assumption].
  rewrite He. rewrite Hr, length_app in Hlen.
  unfold seqZ. rewrite Nat2Z.id. do 2 f_equal. lia.
Qed.

Lemma complete_range_witness :
  let r := pipeline threeEpochs 0 (Int 0) (Int 1) [] in
  thrown r = None /\
  exists new,
    rows (final r) = [] ++ new /\
    Row.epoch <$> new = seqZ 0 (1 - 0 + 1) /\
    written (final r) = writesOf [] new.
Proof.
  apply (complete_range threeEpochs 0 0 1 []).
  - apply monotoneb_sound. vm_compute. reflexivity.
  - intros ep Hep.
    assert (Hcases : ep = 0 \/ ep = 1 \/ ep = 2) by lia.
    destruct Hcases as [-> | [-> | ->]];
      [exists 1 | exists 3 | exists 5]; (split; [simpl; lia | vm_compute; reflexivity]).
Defined.

Lemma epochLoop_thrown api d n : forall ep st err,
  thrown (epochLoop api d n ep st) = Some err <->
  exists k, (k < n)%nat /\
    findEpochStartBlock api (ep + Z.of_nat k) = inl err /\
    forall j, (j < k)%nat -> exists h, findEpochStartBlock api (ep + Z.of_nat j) = inr h.
Proof.
  induction n as [|n IH]; intros ep st err; simpl.
  - split; [discriminate | intros (k & Hk & _); lia].
  - destruct (findEpochStartBlock api ep) as [err0|sb] eqn:Hsb.
    + rewrite (epochBody_throw _ _ _ _ _ Hsb). simpl. split.
      * intros [= <-]. exists O. rewrite Z.add_0_r.
        split; [lia|]. split; [assumption|]. intros j Hj. lia.
      * intros (k & _ & Hk & Hprev). destruct k as [|k].
        -- rewrite Z.add_0_r in Hk. congruence.
        -- destruct (Hprev O ltac:(lia)) as [h Hh]. rewrite Z.add_0_r in Hh. congruence.
    + destruct (epochBody_found api d ep st sb Hsb) as [st' ->].
      rewrite IH. split.
      * intros (k & Hk & Herr & Hprev). exists (S k).
        split; [lia|]. split; [rewrite <- Herr; f_equal; lia|].
        intros [|j] Hj; [rewrite Z.add_0_r; eauto|].
        destruct (Hprev j ltac:(lia)) as [h Hh]. exists h. rewrite <- Hh. f_equal. lia.
      * intros (k & Hk & Herr & Hprev). destruct k as [|k].
        -- rewrite Z.add_0_r in Herr. congruence.
        -- exists k. split; [lia|]. split; [rewrite <- Herr; f_equal; lia|].
           intros j Hj. destruct (Hprev (S j) ltac:(lia)) as [h Hh].
           exists h. rewrite <- Hh. f_equal. lia.
Qed.

(** X9 (which error a run raises).  A run over the epochs [s..e] ends
    with an error exactly when the start of some epoch of the range
    cannot be located, and the error is the one the locator raises for
    the first such epoch; a failure to locate a successor epoch is never
    raised by itself. *)
Theorem run_error (api : Api) (d s e : Z) (existing : list Row.t) (err : Error) :
  thrown (pipeline api d (Int s) (Int e) existing) = Some err <->
  exists ep, s <= ep <= e /\
    findEpochStartBlock api ep = inl err /\
    forall ep', s <= ep' < ep -> exists h, findEpochStartBlock api ep' = inr h.
Proof.
  destruct (pipeline_loop api d (Int s) (Int e) existing) as [-> _]. simpl.
  rewrite epochLoop_thrown. split.
  - intros (k & Hk & Herr & Hprev). exists (s + Z.of_nat k).
    split; [lia|]. split; [assumption|].
    intros ep' Hep'. destruct (Hprev (Z.to_nat (ep' - s)) ltac:(lia)) as [h Hh].
    exists h. rewrite <- Hh. f_equal. lia.
  - intros (ep & Hep & Herr & Hprev). exists (Z.to_nat (ep - s)).
    split; [lia|]. split; [rewrite <- Herr; f_equal; lia|].
    intros j Hj. apply Hprev. lia.
Qed.

(** ** Further properties of the state reader and of the command line *)

Lemma propsLoop_stops pre : forall (out : Obj) k v post,
  Forall (fun kv => is_Some (propValue kv.2)) pre ->
  propValue v = None ->
  propsLoop (pre ++ (k, v) :: post) out = propsLoop pre out.
Proof.
  induction pre as [|[k' v'] pre IH]; intros out k v post Hpre Hv; simpl.
  - rewrite Hv. reflexivity.
  - apply Forall_cons in Hpre as [[s Hs] Hpre]. simpl in Hs. rewrite Hs.
    apply IH; assumption.
Qed.

Lemma propsLoop_app pre : forall (out : Obj) rest,
  Forall (fun kv => is_Some (propValue kv.2)) pre ->
  propsLoop (pre ++ rest) out = propsLoop rest (propsLoop pre out).
Proof.
  induction pre as [|[k' v'] pre IH]; intros out rest Hpre; simpl; [reflexivity|].
  apply Forall_cons in Hpre as [[s Hs] Hpre]. simpl in Hs. rewrite Hs.
  apply IH; assumption.
Qed.

(** X10 (a malformed hexadecimal value cuts the table short).  Let a
    property of the JSON form of a table be a string that starts with
    ["0x"], the properties before it being read without an error.  When
    the string, white space trimmed, is not a hexadecimal literal,
    [mapToObj] returns what it built from the properties before it: that
    property and every property after it are left out, without an
    error.  When it is a hexadecimal literal, the property is stored as
    the decimal form of its value and the loop goes on with the
    properties after it. *)
Theorem bad_hex_truncates (pre post : list (string * JsVal)) (k s : string) :
  Forall (fun kv => is_Some (propValue kv.2)) pre ->
  startsWith0x s = true ->
  mapToObj (MObject (pre ++ (k, JString s) :: post)) =
  match BigInt s with
  | None => mapToObj (MObject pre)
  | Some n => propsLoop post (<[k := toString n]> (mapToObj (MObject pre)))
  end.
Proof.
  intros Hpre Hx. simpl. destruct (BigInt s) as [n|] eqn:Hs.
  - rewrite propsLoop_app by assumption. simpl. rewrite Hx, Hs. reflexivity.
  - apply propsLoop_stops; [assumption|]. simpl. rewrite Hx, Hs. reflexivity.
Qed.

Lemma bad_hex_truncates_witness :
  mapToObj (MObject ([("0"%string, JNumber 5)] ++
                     ("1"%string, JString "0xzz") :: [("2"%string, JNumber 7)]))
  = mapToObj (MObject [("0"%string, JNumber 5)]).
Proof.
  apply (bad_hex_truncates [("0"%string, JNumber 5)] [("2"%string, JNumber 7)] "1" "0xzz").
  - repeat constructor. simpl. eauto.
  - reflexivity.
Defined.

Example hex_with_white_space_is_read :
  mapToObj (MObject [("0"%string, JNumber 5); ("1"%string, JString "0x10 ");
                     ("2"%string, JNumber 7)])
  = {[ "0"%string := "5"%string; "1"%string := "16"%string; "2"%string := "7"%string ]}.
Proof. vm_compute. reflexivity. Qed.

Lemma indexOf_first pre x rest :
  x ∉ pre -> indexOf (pre ++ x :: rest) x = Some (length pre).
Proof.
  induction pre as [|a pre IH]; intros Hni; simpl.
  - rewrite String.eqb_refl. reflexivity.
  - apply not_elem_of_cons in Hni as [Hne Hni].
    destruct (String.eqb_spec a x) as [->|_]; [contradiction|].
    rewrite IH by assumption. reflexivity.
Qed.

Lemma indexOf_absent argv x : x ∉ argv -> indexOf argv x = None.
Proof.
  induction argv as [|a argv IH]; intros Hni; simpl; [reflexivity|].
  apply not_elem_of_cons in Hni as [Hne Hni].
  destruct (String.eqb_spec a x) as [->|_]; [contradiction|].
  rewrite IH by assumption. reflexivity.
Qed.

(** X11 (how an option is looked up).  [getArg] looks only at the first
    occurrence of [--k] among the arguments: when the argument after it
    is a non-empty string that does not start with [--], that argument
    is the result, whatever the environment holds; in every other case
    (no argument follows, an empty one or another option follows, or
    [--k] does not occur) the result is the environment variable named
    by [k] in upper case, or else the default, and a later occurrence of
    [--k] is never used. *)
Theorem getArg_first_occurrence (env : gmap string string) (k : string) (d : option string)
    (pre : list string) :
  ("--" ++ k)%string ∉ pre ->
  let fallback := nullish (env !! toUpperCase k) d in
  (forall v post,
     getArg (pre ++ ("--" ++ k)%string :: v :: post) env k d =
     if negb (String.eqb v "") && negb (startsWithDashes v) then Some v else fallback) /\
  getArg (pre ++ [("--" ++ k)%string]) env k d = fallback /\
  getArg pre env k d = fallback.
Proof.
  intros Hni fallback. split; [|split].
  - intros v post. unfold getArg. rewrite indexOf_first by assumption.
    replace ((pre ++ ("--" ++ k)%string :: v :: post) !! S (length pre)) with (Some v).
    + reflexivity.
    + symmetry. change (("--" ++ k)%string :: v :: post)
        with ([("--" ++ k)%string] ++ v :: post).
      rewrite app_assoc.
      replace (S (length pre)) with (length (pre ++ [("--" ++ k)%string]) + 0)%nat
        by (rewrite length_app; simpl; lia).
      rewrite lookup_app_r by lia.
      replace (length (pre ++ [("--" ++ k)%string]) + 0 - length (pre ++ [("--" ++ k)%string]))%nat
        with O by lia.
      reflexivity.
  - unfold getArg. rewrite indexOf_first by assumption.
    rewrite lookup_ge_None_2; [reflexivity|]. rewrite length_app. simpl. lia.
  - unfold getArg. rewrite indexOf_absent by assumption. reflexivity.
Qed.

Lemma getArg_first_occurrence_witness :
  getArg (["--append"; "--from"; "12"; "--from"; "13"])%string ∅ "from" None = Some "12"%string /\
  getArg (["--to"; "--append"; "--to"; "7"])%string (<["TO" := "current"]> ∅)%string "to"
    (Some "current"%string) = Some "current"%string.
Proof.
  split.
  - apply (proj1 (getArg_first_occurrence ∅ "from" None ["--append"%string]
                    ltac:(apply (bool_decide_unpack _); vm_compute; exact Logic.I))
             "12"%string ["--from"; "13"]%string).
  - etransitivity.
    + apply (proj1 (getArg_first_occurrence (<["TO" := "current"]> ∅)%string "to"
                      (Some "current"%string) [] (not_elem_of_nil _))
               "--append"%string ["--to"; "7"]%string).
    + vm_compute. reflexivity.
Defined.

(** ** The reader script and the back-fill script *)

Lemma search_ext e1 e2 t :
  (forall h, e1 h = e2 h) -> forall s, search e1 t s = search e2 t s.
Proof.
  intros Hext s. funelim (search e1 t s).
  - rewrite (search_loop e2).
    replace (loopStep e2 targetEpoch s) with (Some s'); [auto|].
    match goal with Hs : loopStep _ _ _ = Some _ |- _ => rewrite <- Hs end.
    destruct s as [lo hi]. unfold loopStep. rewrite Hext. reflexivity.
  - rewrite (search_loop e2).
    replace (loopStep e2 targetEpoch s) with (@None (Z * Z)); [reflexivity|].
    match goal with Hs : loopStep _ _ _ = None |- _ => rewrite <- Hs end.
    destruct s as [lo hi]. unfold loopStep. rewrite Hext. reflexivity.
Qed.

Lemma reader_oracle api : epochExposed api -> forall h, Reader.oracle api h = epochAt api h.
Proof.
  intros Hex h. unfold Reader.oracle, Reader.readEpochIndexAt, epochAt, readSummaryAt.
  destruct (domainStakingSummary api h) as [s|] eqn:Hs; [|reflexivity].
  destruct (Hex h s Hs) as [n Hn]. rewrite Hn. reflexivity.
Qed.

Lemma reader_locator api :
  epochExposed api ->
  forall t, Reader.findEpochStartBlock api t = findEpochStartBlock api t.
Proof.
  intros Hex t. unfold Reader.findEpochStartBlock, findEpochStartBlock.
  pose proof (reader_oracle api Hex) as Ho.
  rewrite <- (search_ext _ _ t Ho), <- !Ho.
  set (lo := search (Reader.oracle api) t (1, headNumber api)).
  set (found := isEpoch (Reader.oracle api lo) t).
  unfold Reader.oracle.
  destruct (Reader.readEpochIndexAt api (headNumber api)) as [cur|]; reflexivity.
Qed.

(** X12 (the two locators agree).  On a chain whose summaries all expose
    an epoch index, the locator of the single-epoch reader and the
    locator of the back-fill script return the same height or raise the
    same error, for every target epoch. *)
Theorem locators_agree (api : Api) (targetEpoch : Z) :
  epochExposed api ->
  Reader.findEpochStartBlock api targetEpoch = findEpochStartBlock api targetEpoch.
Proof. intros Hex. apply reader_locator, Hex. Qed.

Lemma chainOf_exposed head epochs : epochExposed (chainOf head epochs).
Proof.
  intros h s. simpl. destruct (epochs h) as [n|]; [|discriminate].
  intros [= <-]. simpl. eauto.
Qed.

Lemma locators_agree_witness :
  Reader.findEpochStartBlock scenario 1 = findEpochStartBlock scenario 1.
Proof. apply (locators_agree scenario 1), chainOf_exposed. Defined.

(** X13 (reader and back-fill on one epoch).  On a chain whose summaries
    all expose an epoch index, when the reader reports the boundaries of
    an epoch: if it found the successor's start, the back-fill run over
    that single epoch ends normally and appends exactly one row, with the
    start height, start hash and end height that the reader reports; if
    the reader fell back on the head as a provisional end, the back-fill
    run ends normally and appends nothing. *)
Theorem reader_matches_backfill (api : Api) (d ep : Z) (existing : list Row.t)
    (rep : Reader.Report) :
  epochExposed api ->
  Reader.boundaries api (Some ep) = inr rep ->
  let r := pipeline api d (Int ep) (Int ep) existing in
  thrown r = None /\
  Reader.epoch rep = ep /\
  if Reader.provisional rep
  then Reader.endBlock rep = headNumber api /\ rows (final r) = existing
  else exists row,
         rows (final r) = existing ++ [row] /\
         Row.epoch row = ep /\
         Row.startBlock row = Reader.startBlock rep /\
         Row.startHash row = Some (Reader.startHash rep) /\
         Row.endBlock row = Reader.endBlock rep.
Proof.
  intros Hex Hrep r.
  unfold Reader.boundaries in Hrep.
  destruct (Reader.readEpochIndexAt api (headNumber api)); [|discriminate].
  rewrite !(reader_locator api Hex) in Hrep.
  destruct (pipeline_loop api d (Int ep) (Int ep) existing) as [Ht Hf].
  fold r in Ht, Hf. rewrite Ht, Hf. simpl.
  replace (Z.to_nat (ep - ep + 1)) with 1%nat by lia. simpl.
  destruct (findEpochStartBlock api ep) as [err|sb] eqn:Hsb; [discriminate|].
  destruct (findEpochStartBlock api (ep + 1)) as [err|ns] eqn:Hns.
  - injection Hrep as <-. simpl.
    rewrite (epochBody_skip _ _ _ _ _ _ (initState_synced _) Hsb Hns). simpl.
    repeat split.
  - injection Hrep as <-. simpl.
    rewrite (epochBody_append _ _ _ _ _ _ Hsb Hns). simpl.
    split; [reflexivity|]. split; [reflexivity|].
    eexists. split; [reflexivity|]. simpl.
    split; [reflexivity|]. split; [reflexivity|]. split; [|reflexivity].
    pose proof (findEpochStartBlock_inr _ _ _ Hsb) as [_ He]. unfold epochAt in He.
    destruct (readSummaryAt api sb) as [snap|] eqn:Hsnap; [|discriminate].
    simpl. f_equal. unfold readSummaryAt in Hsnap.
    destruct (domainStakingSummary api sb); [|discriminate].
    injection Hsnap as <-. reflexivity.
Qed.

Lemma reader_matches_backfill_witness :
  exists rep,
    Reader.boundaries threeEpochs (Some 1) = inr rep /\
    Reader.provisional rep = false /\
    exists row,
      rows (final (pipeline threeEpochs 0 (Int 1) (Int 1) [])) = [] ++ [row] /\
      Row.epoch row = 1 /\
      Row.startBlock row = Reader.startBlock rep /\
      Row.startHash row = Some (Reader.startHash rep) /\
      Row.endBlock row = Reader.endBlock rep.
Proof.
  assert (Hrep : Reader.boundaries threeEpochs (Some 1) =
                 inr {| Reader.epoch := 1;
                        Reader.startBlock := 3; Reader.startHash := "0x3";
                        Reader.endBlock := 4; Reader.endHash := "0x4";
                        Reader.provisional := false |})
    by (vm_compute; reflexivity).
  eexists. split; [exact Hrep|]. split; [reflexivity|].
  exact (proj2 (proj2 (reader_matches_backfill threeEpochs 0 1 [] _
                         (chainOf_exposed _ _) Hrep))).
Defined.

Lemma reader_propsLoop props : forall out : Obj,
  Forall (fun kv => match kv.2 with
                    | JString s => startsWith0x s = false
                    | _ => True
                    end) props ->
  Reader.propsLoop props out = propsLoop props out.
Proof.
  induction props as [|[k v] props IH]; intros out Hall; simpl; [reflexivity|].
  apply Forall_cons in Hall as [Hv Hall]. simpl in Hv.
  destruct v as [|n|s|n]; simpl; try (apply IH; assumption).
  rewrite Hv. apply IH; assumption.
Qed.

(** X14 (the reader's tables).  The reader's [mapToObjectLike] and the
    back-fill's [mapToObj] build the same object from a missing table,
    from a table read through [entries()], and from a JSON form none of
    whose properties is a string that starts with ["0x"]; a property that
    is such a string is kept verbatim by the reader, which never cuts a
    table short. *)
Theorem reader_tables (m : MapLike) :
  (match m with
   | MObject props =>
       Forall (fun kv => match kv.2 with
                         | JString s => startsWith0x s = false
                         | _ => True
                         end) props
   | _ => True
   end -> Reader.mapToObjectLike m = mapToObj m) /\
  (forall props k s,
     m = MObject props -> NoDup props.*1 -> (k, JString s) ∈ props ->
     Reader.mapToObjectLike m !! k = Some s).
Proof.
  split.
  - destruct m as [|es|props]; intros Hm; try reflexivity.
    simpl. apply reader_propsLoop, Hm.
  - intros props k s -> Hnd Hin. simpl.
    assert (Hgen : forall (out : Obj), Reader.propsLoop props out !! k = Some s).
    { clear -Hnd Hin. induction props as [|[k' v'] props IH]; intros out; [inversion Hin|].
      simpl in *. apply NoDup_cons in Hnd as [Hk' Hnd].
      apply elem_of_cons in Hin as [[= <- <-]|Hin]; [|apply IH; assumption].
      assert (Habs : forall (o : Obj), Reader.propsLoop props o !! k = o !! k).
      { clear -Hk'. induction props as [|[k2 v2] props IH]; intros o; simpl; [reflexivity|].
        apply not_elem_of_cons in Hk' as [Hne Hk'].
        rewrite IH by assumption. apply lookup_insert_ne. intros ->. apply Hne. reflexivity. }
      rewrite Habs. apply lookup_insert_eq. }
    apply Hgen.
Qed.

Lemma reader_tables_witness :
  Reader.mapToObjectLike (MObject [("0"%string, JNumber 5); ("1"%string, JCodec 7)])
  = mapToObj (MObject [("0"%string, JNumber 5); ("1"%string, JCodec 7)]).
Proof.
  apply (proj1 (reader_tables (MObject [("0"%string, JNumber 5); ("1"%string, JCodec 7)]))).
  repeat constructor.
Defined.

(** ** The dashboard: amounts *)

Lemma isDigit_cases c :
  Page.isDigit c = true ->
  c = "0"%char \/ c = "1"%char \/ c = "2"%char \/ c = "3"%char \/ c = "4"%char \/
  c = "5"%char \/ c = "6"%char \/ c = "7"%char \/ c = "8"%char \/ c = "9"%char.
Proof.
  destruct c as [[|] [|] [|] [|] [|] [|] [|] [|]]; vm_compute; intros H;
    try discriminate; tauto.
Qed.

Lemma isDigit_word c : Page.isDigit c = true -> Page.isWord c = true.
Proof. intros H. destruct (isDigit_cases c H) as [->|[->|[->|[->|[->|[->|[->|[->|[->| ->]]]]]]]]]; reflexivity. Qed.

Lemma isDigit_not_white c : Page.isDigit c = true -> Page.isWhite c = false.
Proof. intros H. destruct (isDigit_cases c H) as [->|[->|[->|[->|[->|[->|[->|[->|[->| ->]]]]]]]]]; reflexivity. Qed.

Lemma isDigit_not_comma c : Page.isDigit c = true -> Ascii.eqb c "," = false.
Proof. intros H. destruct (isDigit_cases c H) as [->|[->|[->|[->|[->|[->|[->|[->|[->| ->]]]]]]]]]; reflexivity. Qed.

Lemma string_of_uint_digits d : allDigits (NilEmpty.string_of_uint d) = true.
Proof. induction d; simpl; try assumption; reflexivity. Qed.

Lemma toString_digits n : allDigits (toString n) = true /\ toString n <> EmptyString.
Proof.
  unfold toString, NilZero.string_of_uint.
  assert (Hnn : N.to_uint n <> Nil).
  { destruct n; simpl; [discriminate | apply DecimalPos.Unsigned.to_uint_nonnil]. }
  destruct (N.to_uint n) eqn:Hd; try contradiction;
    (split; [rewrite <- Hd, Hd; apply (string_of_uint_digits (_ _)) | discriminate]).
Qed.

Lemma trimEnd_digits s : allDigits s = true -> Page.trimEnd s = s.
Proof.
  induction s as [|c s IH]; simpl; [reflexivity|].
  intros [Hc Hs]%andb_true_iff. rewrite (IH Hs).
  destruct s; [|reflexivity]. rewrite (isDigit_not_white c Hc). reflexivity.
Qed.

Lemma StringToBigInt_digits s :
  allDigits s = true -> s <> EmptyString ->
  Page.StringToBigInt s = Z.of_N <$> parseBigInt s.
Proof.
  intros Hd Hne. unfold Page.StringToBigInt.
  destruct s as [|c s]; [contradiction|].
  simpl in Hd. apply andb_true_iff in Hd as [Hc Hs].
  assert (Htrim : Page.trimEnd (Page.trimStart (String c s)) = String c s).
  { simpl. rewrite (isDigit_not_white c Hc).
    apply trimEnd_digits. simpl. rewrite Hc, Hs. reflexivity. }
  rewrite Htrim.
  destruct (isDigit_cases c Hc) as [->|[->|[->|[->|[->|[->|[->|[->|[->| ->]]]]]]]]];
    try reflexivity.
  destruct s as [|c2 s]; [reflexivity|].
  simpl in Hs. apply andb_true_iff in Hs as [Hc2 _].
  destruct (isDigit_cases c2 Hc2) as [->|[->|[->|[->|[->|[->|[->|[->|[->| ->]]]]]]]]];
    reflexivity.
Qed.

Lemma StringToBigInt_toString n : Page.StringToBigInt (toString n) = Some (Z.of_N n).
Proof.
  destruct (toString_digits n) as [Hd Hne].
  rewrite StringToBigInt_digits by assumption.
  rewrite toString_roundtrip. reflexivity.
Qed.

Lemma toStringZ_of_N n : Page.toStringZ (Z.of_N n) = toString n.
Proof. destruct n; reflexivity. Qed.

Lemma stripCommas_app a b : stripCommas (a ++ b) = (stripCommas a ++ stripCommas b)%string.
Proof.
  induction a as [|c a IH]; simpl; [reflexivity|].
  destruct (Ascii.eqb c ","); simpl; rewrite IH; reflexivity.
Qed.

Lemma stripCommas_digits s : allDigits s = true -> stripCommas s = s.
Proof.
  induction s as [|c s IH]; simpl; [reflexivity|].
  intros [Hc Hs]%andb_true_iff. rewrite (isDigit_not_comma c Hc), (IH Hs). reflexivity.
Qed.

Lemma stripCommas_sepFrom s : forall prev, stripCommas (Page.sepFrom prev s) = stripCommas s.
Proof.
  induction s as [|c s IH]; intros prev; simpl; [reflexivity|].
  destruct (Page.sepMatch prev (String c s)); simpl; rewrite IH; reflexivity.
Qed.

Lemma digitRun_digits s : allDigits s = true -> Page.digitRun s = String.length s.
Proof.
  induction s as [|c s IH]; simpl; [reflexivity|].
  intros [Hc Hs]%andb_true_iff. rewrite Hc, (IH Hs). reflexivity.
Qed.

Lemma allDigits_app a b : allDigits (a ++ b) = allDigits a && allDigits b.
Proof.
  induction a as [|c a IH]; simpl; [reflexivity|]. rewrite IH, andb_assoc. reflexivity.
Qed.

Lemma length_append a b : String.length (a ++ b) = (String.length a + String.length b)%nat.
Proof. induction a as [|c a IH]; simpl; [reflexivity|]. rewrite IH. reflexivity. Qed.

Lemma sepFrom_short s : forall prev,
  allDigits s = true -> (String.length s <= 2)%nat -> Page.sepFrom prev s = s.
Proof.
  induction s as [|c s IH]; intros prev Hd Hl; simpl; [reflexivity|].
  pose proof (digitRun_digits _ Hd) as Hrun.
  simpl in Hd. apply andb_true_iff in Hd as [Hc Hs]. simpl in Hl.
  rewrite (IH _ Hs) by lia.
  replace (Page.sepMatch prev (String c s)) with false; [reflexivity|].
  unfold Page.sepMatch. destruct prev as [p|]; [|reflexivity].
  rewrite Hrun. simpl String.length.
  destruct (String.length s) as [|[|?]]; simpl; try lia; rewrite andb_false_r; reflexivity.
Qed.

Lemma sepFrom_group g c :
  allDigits g = true -> String.length g = 3%nat -> Page.isDigit c = true ->
  Page.sepFrom (Some c) g = String "," g.
Proof.
  intros Hd Hl Hc.
  destruct g as [|g1 [|g2 [|g3 [|? ?]]]]; try discriminate.
  simpl in Hd. rewrite !andb_true_iff in Hd. destruct Hd as (H1 & H2 & H3 & _).
  simpl. rewrite H1, H2, H3, (isDigit_word c Hc). simpl.
  rewrite !andb_false_r. reflexivity.
Qed.

Lemma sepFrom_append_group d : forall prev g,
  allDigits d = true -> d <> EmptyString ->
  allDigits g = true -> String.length g = 3%nat ->
  Page.sepFrom prev (d ++ g) = (Page.sepFrom prev d ++ String "," g)%string.
Proof.
  induction d as [|c d IH]; intros prev g Hd Hne Hg Hl; [contradiction|].
  assert (Hrun1 : Page.digitRun (String c d ++ g) = (String.length (String c d) + 3)%nat).
  { rewrite digitRun_digits, length_append, Hl; [reflexivity|].
    rewrite allDigits_app, Hd, Hg. reflexivity. }
  pose proof (digitRun_digits _ Hd) as Hrun2.
  assert (Hm : Page.sepMatch prev (String c d ++ g) = Page.sepMatch prev (String c d)).
  { unfold Page.sepMatch. destruct prev as [p|]; [|reflexivity].
    rewrite Hrun1, Hrun2. simpl String.length.
    replace (S (String.length d) + 3)%nat with (S (String.length d) + 1 * 3)%nat by lia.
    rewrite Nat.Div0.mod_add. reflexivity. }
  simpl in Hd. apply andb_true_iff in Hd as [Hc Hds].
  change (String c d ++ g)%string with (String c (d ++ g)) in *.
  simpl. simpl in Hm. rewrite Hm.
  assert (Hrest : Page.sepFrom (Some c) (d ++ g) = (Page.sepFrom (Some c) d ++ String "," g)%string).
  { destruct d as [|c' d'].
    - simpl. apply sepFrom_group; assumption.
    - apply IH; try assumption. discriminate. }
  rewrite Hrest. destruct (Page.sepMatch prev (String c d)); reflexivity.
Qed.

(** X15 (thousands separators).  [insertThousandsSeparators] only adds
    commas: without its commas the result is the input without its
    commas.  On digit strings it groups from the right: a string of at
    most three digits is left as it is, and appending three digits to a
    non-empty digit string appends a comma and those three digits to the
    result. *)
Theorem thousands_separators :
  (forall s, stripCommas (Page.insertThousandsSeparators s) = stripCommas s) /\
  (forall d, allDigits d = true -> (String.length d <= 3)%nat ->
     Page.insertThousandsSeparators d = d) /\
  (forall d g, allDigits d = true -> d <> EmptyString ->
     allDigits g = true -> String.length g = 3%nat ->
     Page.insertThousandsSeparators (d ++ g) =
     (Page.insertThousandsSeparators d ++ String "," g)%string).
Proof.
  split; [|split].
  - intros s. apply stripCommas_sepFrom.
  - intros [|c d] Hd Hl; [reflexivity|].
    unfold Page.insertThousandsSeparators. simpl.
    simpl in Hd. apply andb_true_iff in Hd as [_ Hd]. simpl in Hl.
    rewrite sepFrom_short by (assumption || lia). reflexivity.
  - intros d g Hd Hne Hg Hl. apply sepFrom_append_group; assumption.
Qed.

Lemma thousands_separators_witness :
  Page.insertThousandsSeparators ("1234" ++ "567") =
  (Page.insertThousandsSeparators "1234" ++ ",567")%string.
Proof.
  apply (proj2 (proj2 thousands_separators) "1234"%string "567"%string);
    reflexivity || discriminate.
Defined.

(** X16 (formatting a stored amount).  For the decimal string of any
    unsigned integer, [formatBig] returns the digits with thousands
    separators, and removing the commas gives back a string that parses
    to the same integer; for a non-empty string that is no BigInt
    literal it returns the string unchanged, and for a missing or empty
    one the empty string. *)
Theorem formatBig_amount :
  (forall n, Page.formatBig (Some (toString n)) = Page.insertThousandsSeparators (toString n) /\
             stripCommas (Page.formatBig (Some (toString n))) = toString n /\
             parseBigInt (stripCommas (Page.formatBig (Some (toString n)))) = Some n) /\
  (forall s, Page.StringToBigInt s = None -> Page.formatBig (Some s) = s) /\
  Page.formatBig None = EmptyString /\
  Page.formatBig (Some EmptyString) = EmptyString.
Proof.
  split; [|split; [|split; reflexivity]].
  - intros n. destruct (toString_digits n) as [Hd Hne].
    assert (Hf : Page.formatBig (Some (toString n)) =
                 Page.insertThousandsSeparators (toString n)).
    { unfold Page.formatBig. destruct (toString n) eqn:Hs; [contradiction|].
      rewrite <- Hs, StringToBigInt_toString, toStringZ_of_N. reflexivity. }
    rewrite Hf. unfold Page.insertThousandsSeparators.
    rewrite stripCommas_sepFrom, stripCommas_digits by assumption.
    split; [reflexivity|]. split; [reflexivity | apply toString_roundtrip].
  - intros s Hs. unfold Page.formatBig. destruct s; [reflexivity|].
    rewrite Hs. reflexivity.
Qed.

Lemma formatBig_amount_witness :
  Page.formatBig (Some "1x"%string) = "1x"%string /\
  Page.formatBig (Some (toString 1234567)) = "1,234,567"%string.
Proof.
  split.
  - apply (proj1 (proj2 formatBig_amount)). reflexivity.
  - etransitivity; [apply (proj1 formatBig_amount 1234567%N)|]. reflexivity.
Defined.

Lemma pow10BigInt_spec n : Page.pow10BigInt n = 10 ^ Z.of_nat n.
Proof.
  induction n as [|n IH]; [reflexivity|].
  cbn [Page.pow10BigInt]. rewrite IH, Nat2Z.inj_succ, Z.pow_succ_r by lia. lia.
Qed.

Lemma tokenParts_nonneg (v : Z) (fd : nat) :
  0 <= v ->
  let S := 10 ^ Z.of_nat fd in
  let i := (Page.tokenParts v fd).1 in
  let f := (Page.tokenParts v fd).2 in
  0 <= i /\ 0 <= f < S /\ i * S + f = (v * S + 5 * 10 ^ 17) / 10 ^ 18 /\
  (i = v / 10 ^ 18 \/ i = v / 10 ^ 18 + 1 /\ f = 0).
Proof.
  intros Hv S i f. subst i f. unfold Page.tokenParts.
  rewrite (pow10BigInt_spec fd). fold S.
  change (Page.pow10BigInt 18) with (10 ^ 18).
  change (Z.quot (10 ^ 18) 2) with (5 * 10 ^ 17).
  set (B := 10 ^ 18). set (H := 5 * 10 ^ 17).
  assert (HB : 0 < B) by (subst B; lia).
  assert (HH : 0 <= H < B) by (subst B H; lia).
  assert (HS : 0 < S) by (subst S; apply Z.pow_pos_nonneg; lia).
  rewrite (Z.quot_div_nonneg v B), (Z.rem_mod_nonneg v B) by lia.
  pose proof (Z.div_mod v B ltac:(lia)) as Hqr.
  pose proof (Z.mod_pos_bound v B HB) as Hr.
  pose proof (Z.div_pos v B Hv HB) as Hq.
  set (q := v / B) in *. set (r := v mod B) in *.
  assert (Hrs : 0 <= r * S) by nia.
  rewrite Z.quot_div_nonneg by lia.
  pose proof (Z.div_mod (r * S + H) B ltac:(lia)) as HF.
  pose proof (Z.mod_pos_bound (r * S + H) B HB) as HFm.
  set (F := (r * S + H) / B) in *. set (m := (r * S + H) mod B) in *.
  assert (HF0 : 0 <= F) by (subst F; apply Z.div_pos; lia).
  assert (HFS : F <= S).
  { destruct (Z.le_gt_cases F S) as [|Hgt]; [assumption|].
    assert (B * (S + 1) <= B * F) by (apply Z.mul_le_mono_nonneg_l; lia).
    assert (r * S <= (B - 1) * S) by (apply Z.mul_le_mono_nonneg_r; lia).
    lia. }
  assert (Hdiv : (v * S + H) / B = q * S + F).
  { symmetry. apply (Z.div_unique_pos _ _ _ m); [lia|].
    rewrite Hqr. lia. }
  rewrite Hdiv.
  destruct (Z.leb_spec S F); cbn [fst snd].
  - repeat split; lia.
  - repeat split; lia.
Qed.

(** X17 (token amounts are rounded half up).  For the decimal string of
    an unsigned integer [v] (an amount in shannons) and a number of
    fraction digits, the token formatters print an integer part [i] and a
    fractional part [f] below the [fractionDigits]-th power of ten with
    [i * 10^fractionDigits + f] the quotient of [v * 10^fractionDigits +
    5 * 10^17] by [10^18]: the amount in tokens rounded half up, the carry
    moved into the integer part.  The integer-only formatter prints the
    quotient of [v] by [10^18], not rounded. *)
Theorem token_rounding (v : N) (fractionDigits : nat) :
  let S := 10 ^ Z.of_nat fractionDigits in
  exists i f : N,
    (Z.of_N f < S)%Z /\
    Z.of_N i * S + Z.of_N f = (Z.of_N v * S + 5 * 10 ^ 17) / 10 ^ 18 /\
    Page.formatTokensFromShannons (Some (toString v)) fractionDigits =
      (Page.insertThousandsSeparators (toString i) ++ "." ++
       Page.padStart fractionDigits (toString f))%string /\
    Page.tokensPlainFromShannons (Some (toString v)) fractionDigits =
      (toString i ++ "." ++ Page.padStart fractionDigits (toString f))%string /\
    Page.formatTokensIntegerFromShannons (Some (toString v)) =
      Page.insertThousandsSeparators (toString (v / 10 ^ 18)%N).
Proof.
  intros S.
  destruct (tokenParts_nonneg (Z.of_N v) fractionDigits ltac:(lia)) as (Hi & Hf & Heq & _).
  fold S in Hf, Heq.
  destruct (Page.tokenParts (Z.of_N v) fractionDigits) as [i f] eqn:Hparts.
  cbn [fst snd] in *.
  exists (Z.to_N i), (Z.to_N f). rewrite !Z2N.id by lia.
  split; [lia|]. split; [assumption|].
  destruct (toString_digits v) as [_ Hne].
  unfold Page.formatTokensFromShannons, Page.tokensPlainFromShannons,
    Page.formatTokensIntegerFromShannons.
  destruct (toString v) eqn:Hs; [contradiction|]. rewrite <- Hs.
  rewrite StringToBigInt_toString, Hparts.
  rewrite <- !toStringZ_of_N, !Z2N.id by lia.
  split; [reflexivity|]. split; [reflexivity|].
  f_equal. f_equal.
  change (Page.pow10BigInt 18) with (10 ^ 18).
  rewrite Z.quot_div_nonneg by lia.
  rewrite N2Z.inj_div. reflexivity.
Qed.

Example token_rounding_carry :
  Page.formatTokensFromShannons (Some "1999500000000000000") 3 = "2.000"%string /\
  Page.formatTokensIntegerFromShannons (Some "1999500000000000000") = "1"%string /\
  Page.formatTokensFromShannons (Some "1234567891234567890123") 3 = "1,234.568"%string.
Proof. vm_compute. repeat split. Qed.

Lemma toStringZ_no_comma z : stripCommas (Page.toStringZ z) = Page.toStringZ z.
Proof.
  destruct z as [|p|p]; [reflexivity| |]; simpl.
  - apply stripCommas_digits, toString_digits.
  - f_equal. apply stripCommas_digits, toString_digits.
Qed.

Lemma zeros_digits k : allDigits (String.concat "" (replicate k "0"%string)) = true.
Proof.
  induction k as [|k IH]; [reflexivity|].
  simpl. destruct (replicate k "0"%string) eqn:Hr; [reflexivity|].
  simpl in *. exact IH.
Qed.

Lemma padStart_no_comma n s :
  stripCommas s = s -> stripCommas (Page.padStart n s) = Page.padStart n s.
Proof.
  intros Hs. unfold Page.padStart.
  rewrite stripCommas_app, Hs, stripCommas_digits by apply zeros_digits. reflexivity.
Qed.

(** X18 (the plain form is the formatted form without commas).  For
    every input and every number of fraction digits,
    [tokensPlainFromShannons] returns what [formatTokensFromShannons]
    returns with its commas removed. *)
Theorem plain_is_formatted_without_commas (x : option string) (fractionDigits : nat) :
  stripCommas (Page.formatTokensFromShannons x fractionDigits) =
  Page.tokensPlainFromShannons x fractionDigits.
Proof.
  unfold Page.formatTokensFromShannons, Page.tokensPlainFromShannons.
  destruct x as [[|c s]|]; try reflexivity.
  destruct (Page.StringToBigInt (String c s)) as [value|]; [|reflexivity].
  destruct (Page.tokenParts value fractionDigits) as [i f].
  unfold Page.insertThousandsSeparators.
  rewrite !stripCommas_app, stripCommas_sepFrom, toStringZ_no_comma.
  rewrite padStart_no_comma by apply toStringZ_no_comma. reflexivity.
Qed.

(** ** The dashboard: tables and rows *)

Lemma dash_propValue v s : propValue v = Some s -> Dash.propValue v = s.
Proof.
  destruct v as [|n|x|n]; simpl; try (intros [= <-]; reflexivity).
  destruct (startsWith0x x); [|intros [= <-]; reflexivity].
  destruct (BigInt x); simpl; [intros [= <-]; reflexivity | discriminate].
Qed.

Lemma dash_propsLoop_keeps props : forall (o1 o2 : Obj),
  (forall k, k ∈ props.*1 -> o1 !! k = None) ->
  o1 ⊆ o2 -> o1 ⊆ Dash.propsLoop props o2.
Proof.
  induction props as [|[k v] props IH]; intros o1 o2 Hk Hsub; simpl; [assumption|].
  apply IH.
  - intros k' Hk'. apply Hk. right. assumption.
  - apply map_subseteq_spec. intros i x Hi.
    destruct (decide (i = k)) as [->|Hne].
    + rewrite (Hk k) in Hi by (left; reflexivity). discriminate.
    + rewrite lookup_insert_ne by congruence.
      rewrite map_subseteq_spec in Hsub. apply Hsub, Hi.
Qed.

Lemma dash_propsLoop_above props : forall (o1 o2 : Obj),
  NoDup props.*1 ->
  (forall k, k ∈ props.*1 -> o1 !! k = None) ->
  o1 ⊆ o2 -> propsLoop props o1 ⊆ Dash.propsLoop props o2.
Proof.
  induction props as [|[k v] props IH]; intros o1 o2 Hnd Hk Hsub; simpl; [assumption|].
  simpl in Hnd. apply NoDup_cons in Hnd as [Hkn Hnd].
  destruct (propValue v) as [s|] eqn:Hv.
  - rewrite (dash_propValue _ _ Hv). apply IH; [assumption| |apply insert_mono, Hsub].
    intros k' Hk'. rewrite lookup_insert_ne by (intros ->; contradiction).
    apply Hk. right. assumption.
  - apply dash_propsLoop_keeps.
    + intros k' Hk'. apply Hk. right. assumption.
    + apply map_subseteq_spec. intros i x Hi.
      destruct (decide (i = k)) as [->|Hne].
      * rewrite (Hk k) in Hi by (left; reflexivity). discriminate.
      * rewrite lookup_insert_ne by congruence.
        rewrite map_subseteq_spec in Hsub. apply Hsub, Hi.
Qed.

Lemma dash_propsLoop_same props : forall out : Obj,
  Forall (fun kv => is_Some (propValue kv.2)) props ->
  Dash.propsLoop props out = propsLoop props out.
Proof.
  induction props as [|[k v] props IH]; intros out Hall; simpl; [reflexivity|].
  apply Forall_cons in Hall as [[s Hs] Hall]. simpl in Hs.
  rewrite Hs, (dash_propValue _ _ Hs). apply IH, Hall.
Qed.

Lemma dash_propsLoop_dom props : forall (out : Obj) k,
  k ∈ props.*1 \/ is_Some (out !! k) -> is_Some (Dash.propsLoop props out !! k).
Proof.
  induction props as [|[k' v] props IH]; intros out k Hk; simpl.
  - destruct Hk as [Hk|Hk]; [inversion Hk | assumption].
  - apply IH. destruct Hk as [Hk|Hk].
    + simpl in Hk. apply elem_of_cons in Hk as [->|Hk]; [|left; assumption].
      right. rewrite lookup_insert_eq. eauto.
    + right. destruct (decide (k = k')) as [->|Hne].
      * rewrite lookup_insert_eq. eauto.
      * rewrite lookup_insert_ne by congruence. assumption.
Qed.

Lemma dash_propsLoop_absent props : forall (out : Obj) key,
  key ∉ props.*1 -> Dash.propsLoop props out !! key = out !! key.
Proof.
  induction props as [|[k v] props IH]; intros out key Hk; simpl; [reflexivity|].
  apply not_elem_of_cons in Hk as [Hne Hk].
  rewrite IH by assumption. apply lookup_insert_ne.
  intros ->. apply Hne. reflexivity.
Qed.

Lemma dash_propsLoop_lookup props : forall (out : Obj) k v,
  NoDup props.*1 -> (k, v) ∈ props ->
  Dash.propsLoop props out !! k = Some (Dash.propValue v).
Proof.
  induction props as [|[k' v'] props IH]; intros out k v Hnd Hin; [inversion Hin|].
  simpl in *. apply NoDup_cons in Hnd as [Hk' Hnd].
  apply elem_of_cons in Hin as [[= <- <-]|Hin].
  - rewrite dash_propsLoop_absent by assumption. apply lookup_insert_eq.
  - apply IH; assumption.
Qed.

Lemma dash_propsLoop_from props : forall (out : Obj) k str,
  Dash.propsLoop props out !! k = Some str ->
  out !! k = Some str \/ exists v, (k, v) ∈ props /\ str = Dash.propValue v.
Proof.
  induction props as [|[k' v'] props IH]; intros out k str Hl; simpl in Hl; [left; assumption|].
  apply IH in Hl as [Hl|(v & Hin & ->)].
  - destruct (decide (k = k')) as [->|Hne].
    + rewrite lookup_insert_eq in Hl. injection Hl as <-.
      right. exists v'. split; [left | reflexivity].
    + rewrite lookup_insert_ne in Hl by congruence. left. assumption.
  - right. exists v. split; [right; assumption | reflexivity].
Qed.

(** X19 (the dashboard's own table reader).  The dashboard's [mapToObj]
    gives every property of a table's JSON form a value; it builds the
    same object as the back-fill's [mapToObj] when no value makes
    [BigInt] throw, and otherwise, the property names being distinct,
    an object that contains everything the back-fill's builds.  The
    property names being distinct, each property is stored under its
    name: a string that starts with ["0x"] as the decimal form of its
    value when it is a hexadecimal literal (white space trimmed) and as
    it is when [BigInt] rejects it, any other string as it is, a number
    or a codec integer in decimal; and nothing else is stored. *)
Theorem dashboard_tables :
  (forall props k, k ∈ props.*1 -> is_Some (Dash.mapToObj (MObject props) !! k)) /\
  (forall m,
     match m with
     | MObject props => Forall (fun kv => is_Some (propValue kv.2)) props
     | _ => True
     end -> Dash.mapToObj m = mapToObj m) /\
  (forall props, NoDup props.*1 ->
     mapToObj (MObject props) ⊆ Dash.mapToObj (MObject props)) /\
  (forall props k v, NoDup props.*1 -> (k, v) ∈ props ->
     Dash.mapToObj (MObject props) !! k =
     Some match v with
          | JString s =>
              if startsWith0x s
              then match BigInt s with Some n => toString n | None => s end
              else s
          | JNumber n | JCodec n => toString n
          | JNull => "null"%string
          end) /\
  (forall props k s, NoDup props.*1 -> (k, JString s) ∈ props ->
     startsWith0x s = true -> BigInt s = None ->
     Dash.mapToObj (MObject props) !! k = Some s) /\
  (forall props k str, Dash.mapToObj (MObject props) !! k = Some str ->
     exists v, (k, v) ∈ props /\ str = Dash.propValue v).
Proof.
  split; [|split; [|split; [|split; [|split]]]].
  - intros props k Hk. simpl. apply dash_propsLoop_dom. left. assumption.
  - intros [|es|props] Hm; try reflexivity. simpl. apply dash_propsLoop_same, Hm.
  - intros props Hnd. simpl. apply dash_propsLoop_above; [assumption| |reflexivity].
    intros k _. apply lookup_empty.
  - intros props k v Hnd Hin. simpl.
    rewrite (dash_propsLoop_lookup props ∅ k v Hnd Hin). destruct v; reflexivity.
  - intros props k s Hnd Hin Hx Hs. simpl.
    rewrite (dash_propsLoop_lookup props ∅ k _ Hnd Hin). simpl. rewrite Hx, Hs. reflexivity.
  - intros props k str Hl. simpl in Hl.
    apply dash_propsLoop_from in Hl as [Hl|Hl]; [|assumption].
    rewrite lookup_empty in Hl. discriminate.
Qed.

Lemma dashboard_tables_witness :
  mapToObj (MObject [("0"%string, JNumber 5); ("1"%string, JString "0xzz")])
  ⊆ Dash.mapToObj (MObject [("0"%string, JNumber 5); ("1"%string, JString "0xzz")]) /\
  Dash.mapToObj (MObject [("0"%string, JNumber 5); ("1"%string, JString "0xzz")])
    !! "1"%string = Some "0xzz"%string.
Proof.
  destruct dashboard_tables as (_ & _ & Hsub & _ & Hkept & _).
  split.
  - apply Hsub. apply (bool_decide_unpack _). vm_compute. exact Logic.I.
  - apply Hkept.
    + apply (bool_decide_unpack _). vm_compute. exact Logic.I.
    + right. left.
    + reflexivity.
    + reflexivity.
Defined.

Example dashboard_hex_with_white_space :
  Dash.mapToObj (MObject [("0"%string, JString "0x10 "); ("1"%string, JString "0x")])
  = {[ "0"%string := "16"%string; "1"%string := "0x"%string ]}.
Proof. vm_compute. reflexivity. Qed.

Lemma rewardsTotal_insert (out : Obj) k v :
  out !! k = None ->
  Dash.rewardsTotal (<[k := v]> out) =
  match Page.StringToBigInt v with
  | Some n => Dash.rewardsTotal out + n
  | None => Dash.rewardsTotal out
  end.
Proof.
  intros Hk. unfold Dash.rewardsTotal.
  rewrite map_fold_insert_L; [reflexivity| |assumption].
  intros j1 j2 z1 z2 y _ _ _.
  destruct (Page.StringToBigInt z1), (Page.StringToBigInt z2); lia.
Qed.

Lemma rewardsTotal_entries es : forall out : Obj,
  NoDup es.*1 ->
  (forall k v, (k, v) ∈ es -> out !! toString k = None) ->
  Forall (fun kv => is_Some (entryInteger kv.2)) es ->
  Dash.rewardsTotal (entriesLoop es out) = Dash.rewardsTotal out + tableSum es.
Proof.
  induction es as [|[k v] es IH]; intros out Hnd Hout Hall; simpl; [lia|].
  simpl in Hnd. apply NoDup_cons in Hnd as [Hk Hnd].
  apply Forall_cons in Hall as [[n Hn] Hall]. simpl in Hn.
  rewrite IH; [|assumption| |assumption].
  - rewrite rewardsTotal_insert by (apply (Hout k v); left).
    rewrite (entryValue_integer _ _ Hn), StringToBigInt_toString, Hn. simpl. lia.
  - intros k' v' Hin. rewrite lookup_insert_ne; [apply (Hout k' v'); right; assumption|].
    intros Heq%toString_inj. subst k'. apply Hk.
    apply list_elem_of_fmap. exists (k, v'). split; [reflexivity | assumption].
Qed.

(** X20 (the rewards total of the dashboard).  For a rewards table read
    through [entries()] with pairwise distinct operator ids and integer
    values, the total that the dashboard computes from the object stored
    by [mapToObj] is the sum of the values of the table, whatever their
    size. *)
Theorem rewards_total_is_sum (es : list (N * JsVal)) :
  NoDup es.*1 ->
  Forall (fun kv => is_Some (entryInteger kv.2)) es ->
  Dash.rewardsTotal (mapToObj (MEntries es)) = tableSum es.
Proof.
  intros Hnd Hall. simpl. rewrite rewardsTotal_entries; try assumption.
  - unfold Dash.rewardsTotal. rewrite map_fold_empty. lia.
  - intros k v _. apply lookup_empty.
Qed.

Lemma rewards_total_is_sum_witness :
  Dash.rewardsTotal (mapToObj (MEntries [(0%N, JCodec (2 ^ 60)%N); (1%N, JCodec (2 ^ 63 + 1)%N)]))
  = tableSum [(0%N, JCodec (2 ^ 60)%N); (1%N, JCodec (2 ^ 63 + 1)%N)].
Proof.
  apply (rewards_total_is_sum [(0%N, JCodec (2 ^ 60)%N); (1%N, JCodec (2 ^ 63 + 1)%N)]).
  - apply (bool_decide_unpack _). vm_compute. exact Logic.I.
  - repeat constructor; simpl; eauto.
Defined.

Lemma gtJs_trans a b c : Dash.gtJs b a = true -> Dash.gtJs c b = true -> Dash.gtJs c a = true.
Proof.
  destruct a, b, c; simpl; try discriminate.
  intros H1%Z.ltb_lt H2%Z.ltb_lt. apply Z.ltb_lt. lia.
Qed.

Lemma gtJs_eq a b c : Dash.gtJs b a = true -> Dash.eqJs c b = true -> Dash.gtJs c a = true.
Proof.
  destruct a, b, c; simpl; try discriminate.
  intros H1%Z.ltb_lt H2%Z.eqb_eq. apply Z.ltb_lt. lia.
Qed.

(** X21 (merging the live row).  With a live row, [mergedRows] keeps
    every persisted row but possibly the last, in place, and returns as
    many rows as were persisted or one more; it keeps a sequence that is
    in strictly ascending epoch order in that order; and when the live
    row has the epoch of the last persisted row, the live row takes that
    row's place, so that the last row shown then has no start block.
    Without a live row the persisted rows are returned as they are. *)
Theorem merged_rows (rows : list Dash.Row) (live : Dash.Row) :
  let merged := Dash.mergedRows rows (Some live) in
  Dash.mergedRows rows None = rows /\
  (length rows <= length merged <= S (length rows))%nat /\
  removelast rows `prefix_of` merged /\
  (dashAscending rows -> dashAscending merged) /\
  (forall lastRow, last rows = Some lastRow ->
     Dash.eqJs (Dash.epoch live) (Dash.epoch lastRow) = true ->
     merged = removelast rows ++ [live] /\
     forall api h, Dash.liveRowAt api h = Some live ->
       Dash.startBlock <$> last merged = Some None).
Proof.
  intros merged. split; [reflexivity|]. subst merged. unfold Dash.mergedRows.
  destruct (last rows) as [l|] eqn:Hlast.
  - apply last_Some in Hlast as [init ->]. rewrite removelast_last.
    destruct (Dash.gtJs (Dash.epoch live) (Dash.epoch l)) eqn:Hgt;
      [|destruct (Dash.eqJs (Dash.epoch live) (Dash.epoch l)) eqn:Heq].
    + split; [rewrite !length_app; simpl; lia|].
      split; [apply prefix_app_r, prefix_app_r; reflexivity|].
      split.
      * unfold dashAscending. intros Hs.
        apply StronglySorted_app_2; [|assumption|repeat constructor].
        intros x1 x2 Hx1 ->%list_elem_of_singleton.
        apply elem_of_app in Hx1 as [Hx1| ->%list_elem_of_singleton]; [|assumption].
        apply (gtJs_trans _ (Dash.epoch l)); [|assumption].
        apply (StronglySorted_app_1_elem_of _ _ _ _ _ Hs Hx1). left.
      * intros lastRow [= <-] Heq. exfalso.
        destruct (Dash.epoch live), (Dash.epoch l); simpl in *; try discriminate.
        apply Z.ltb_lt in Hgt. apply Z.eqb_eq in Heq. lia.
    + split; [rewrite !length_app; simpl; lia|].
      split; [apply prefix_app_r; reflexivity|].
      split.
      * unfold dashAscending. intros Hs.
        apply StronglySorted_app_2; [|eapply StronglySorted_app_1_l; eassumption|repeat constructor].
        intros x1 x2 Hx1 ->%list_elem_of_singleton.
        apply (gtJs_eq _ (Dash.epoch l)); [|assumption].
        apply (StronglySorted_app_1_elem_of _ _ _ _ _ Hs Hx1). left.
      * intros lastRow _ _. split; [reflexivity|].
        intros api h Hlive. rewrite last_snoc. simpl. f_equal.
        unfold Dash.liveRowAt in Hlive.
        destruct (domainStakingSummary api h); [|discriminate].
        injection Hlive as <-. reflexivity.
    + split; [lia|].
      split; [apply prefix_app_r; reflexivity|].
      split; [auto|].
      intros lastRow [= <-] Heq'. congruence.
  - apply last_None in Hlast as ->. simpl.
    split; [lia|]. split; [apply prefix_nil|].
    split; [intros _; repeat constructor|].
    intros lastRow [=].
Qed.

Lemma length_omap_le {A B} (f : A -> option B) l : (length (omap f l) <= length l)%nat.
Proof.
  induction l as [|x l IH]; csimpl; [lia|]. destruct (f x); csimpl; lia.
Qed.

(** The multiples of [step] below [k] are counted by the least [g] with
    [k <= g * step]. *)
Lemma multiples_below step k :
  (1 <= step)%nat ->
  let g := length (filter (fun i : nat => (i mod step)%nat = O) (seq 0 k)) in
  (Z.of_nat g - 1) * Z.of_nat step < Z.of_nat k <= Z.of_nat g * Z.of_nat step.
Proof.
  intros Hstep. induction k as [|k IH]; [simpl; lia|].
  rewrite seq_S, filter_app, length_app. simpl in IH |- *.
  set (g := length (filter (fun i : nat => (i mod step)%nat = O) (seq 0 k))) in *.
  rewrite filter_cons, filter_nil.
  destruct (decide ((k mod step)%nat = O)) as [Hm|Hm]; simpl.
  - pose proof (Nat.div_mod k step ltac:(lia)) as Hk. rewrite Hm, Nat.add_0_r in Hk.
    set (q := (k / step)%nat) in *.
    assert (q = g) by nia. subst q. nia.
  - assert (Z.of_nat k <> Z.of_nat g * Z.of_nat step).
    { intros Heq. apply Hm. replace k with (g * step)%nat by lia.
      apply Nat.Div0.mod_mul. }
    lia.
Qed.

Lemma sampleStep_covers n : (n <= Dash.sampleStep n * 1000)%nat.
Proof.
  unfold Dash.sampleStep. pose proof (Nat.div_mod (n + 999) 1000 ltac:(lia)).
  pose proof (Nat.mod_upper_bound (n + 999) 1000 ltac:(lia)). lia.
Qed.

Lemma sampledIndices_length n :
  (1 <= n)%nat -> (length (Dash.sampledIndices n) <= 1001)%nat.
Proof.
  intros Hn. unfold Dash.sampledIndices.
  pose proof (sampleStep_covers n) as Hc.
  assert (Hstep : (1 <= Dash.sampleStep n)%nat) by lia.
  pose proof (multiples_below (Dash.sampleStep n) n Hstep) as Hg. simpl in Hg.
  set (sampled := filter (fun i : nat => (i mod Dash.sampleStep n)%nat = O) (seq 0 n)) in *.
  assert (length sampled <= 1000)%nat by nia.
  destruct (decide (last sampled = Some (n - 1)%nat)); [lia|].
  rewrite length_app. simpl. lia.
Qed.

Lemma sampledIndices_last n : last (Dash.sampledIndices n) = Some (n - 1)%nat.
Proof.
  unfold Dash.sampledIndices.
  destruct (decide (last _ = Some (n - 1)%nat)) as [Hl|_]; [exact Hl | apply last_snoc].
Qed.

Lemma sampledIndices_range n i : (1 <= n)%nat -> i ∈ Dash.sampledIndices n -> (i < n)%nat.
Proof.
  intros Hn. unfold Dash.sampledIndices.
  destruct (decide (last _ = Some (n - 1)%nat)) as [_|_].
  - intros [_ Hi%elem_of_seq]%list_elem_of_filter. lia.
  - intros [[_ Hi%elem_of_seq]%list_elem_of_filter| ->%list_elem_of_singleton]%elem_of_app; lia.
Qed.

Lemma last_drop {A} (l : list A) k : (k < length l)%nat -> last (drop k l) = last l.
Proof.
  intros Hk. rewrite !last_lookup, lookup_drop, length_drop. f_equal. lia.
Qed.

Lemma last_omap_lookup {A} (arr : list A) idx i :
  last idx = Some i -> (i < length arr)%nat ->
  last (omap (fun j => arr !! j) idx) = arr !! i.
Proof.
  intros [idx' ->]%last_Some Hi. rewrite omap_app. simpl.
  destruct (lookup_lt_is_Some_2 arr i Hi) as [x Hx]. rewrite Hx. apply last_snoc.
Qed.

(** X22 (what the charts are given).  For every range setting, the rows
    handed to the charts are at most 1001, all of them are rows of the
    dashboard's sequence, and the last of them is the last row of that
    sequence; with the setting [All] and at most 1000 rows the charts get
    the whole sequence, and with the settings 50 and 200 its last 50 or
    200 rows. *)
Theorem chart_rows {A} (range : Dash.Range) (baseRows : list A) :
  let shown := Dash.chartRows range (Dash.displayRows range baseRows) in
  (length shown <= 1001)%nat /\
  (forall x, x ∈ shown -> x ∈ baseRows) /\
  last shown = last baseRows /\
  match range with
  | Dash.All => (length baseRows <= 1000)%nat -> shown = baseRows
  | Dash.R50 => shown = drop (length baseRows - 50) baseRows
  | Dash.R200 => shown = drop (length baseRows - 200) baseRows
  end.
Proof.
  assert (Hslice : forall n, (n <= 1001)%nat -> (1 <= n)%nat ->
    (length (Dash.sliceLast n baseRows) <= 1001)%nat /\
    (forall x, x ∈ Dash.sliceLast n baseRows -> x ∈ baseRows) /\
    last (Dash.sliceLast n baseRows) = last baseRows).
  { intros n Hn1 Hn2. unfold Dash.sliceLast. split; [rewrite length_drop; lia|].
    split; [intros x; apply subseteq_drop|].
    destruct baseRows as [|b l]; [reflexivity|]. apply last_drop. simpl. lia. }
  intros shown. subst shown. destruct range; simpl.
  - destruct (Hslice 50%nat ltac:(lia) ltac:(lia)) as (H1 & H2 & H3).
    repeat split; assumption.
  - destruct (Hslice 200%nat ltac:(lia) ltac:(lia)) as (H1 & H2 & H3).
    repeat split; assumption.
  - destruct (Nat.ltb_spec 1000 (length baseRows)) as [Hbig|Hsmall].
    + split; [|split; [|split; [|lia]]].
      * etransitivity; [apply length_omap_le | apply sampledIndices_length; lia].
      * intros x (i & _ & Hi)%list_elem_of_omap. eapply list_elem_of_lookup_2, Hi.
      * rewrite (last_omap_lookup _ _ (length baseRows - 1)%nat)
          by (apply sampledIndices_last || lia).
        rewrite last_lookup. f_equal. lia.
    + repeat split; auto; lia.
Qed.

Example chart_rows_sampled :
  length (Dash.chartRows Dash.All (seq 0 2500)) = 834%nat /\
  last (Dash.chartRows Dash.All (seq 0 2500)) = Some 2499%nat.
Proof. vm_compute. split; reflexivity. Qed.
